(** * libhal-canrouter: the CAN message router [hal::can_router]

    A shallow embedding of [can_router.hpp] / [can_router.cpp] and the
    properties of its dispatch, registration and lifetime protocol.

    Router objects live in a store indexed by their address, because the
    receive callback installed on a peripheral is a reference wrapper
    around the router object: it names an object, not a value. The effects
    of the code are
    - reads and writes of the fields of router objects,
    - calls of [hal::can::on_receive] on the peripheral behind [m_can],
    - calls of application message handlers,
    - faults (a null [m_can] dereferenced, a full route store).
    The first two are state, the third is returned as the sequence of calls
    an operation makes, the last is the error of a small state-error monad. *)

From stdpp Require Import gmap list.

Set Default Proof Using "Type".

(** ** Frames *)

(** Modelled from the spec: [hal::can::id_t] is declared in libhal; it is an
    unsigned bus identifier, and the router only compares identifiers for
    equality. *)
Abbreviation id_t := N (only parsing).

(** Modelled from the spec: [hal::can::message_t] is declared in libhal; a
    frame has an identifier and a payload. The router reads the [id] field
    only (here [msg_id], since [id] is the identity function in Rocq). *)
Record message_t := {
  msg_id : id_t;
  msg_payload : list N
}.

(** Addresses of [can_router] objects, identities of [hal::can] peripherals
    and identities of [static_list<route>::item] nodes. *)
Abbreviation addr := nat (only parsing).
Abbreviation can_ptr := nat (only parsing).
Abbreviation item := nat (only parsing).

(** What a peripheral's single receive slot can hold once a router has
    written it: [can_router::noop], or [std::ref] of a router object. *)
Inductive receive_handler :=
  | recv_noop
  | recv_router (this : addr).

Inductive error :=
  | CapacityExceeded
  | NullDereference
  | InvalidObject.

Inductive result (A : Type) :=
  | Ok (a : A)
  | Err (e : error).
Arguments Ok {A} a.
Arguments Err {A} e.

(** The two logical states of a live router object. *)
Inductive lifecycle := active | detached.

Section Router.

(** The application state the message handlers act on. *)
Context {App : Type}.

(** The fixed capacity of a route store. *)
Variable capacity : nat.

(** [hal::callback<hal::can::handler>]: a callable taking the frame by const
    reference and returning nothing; all it does is change the application
    state. *)
Definition message_handler := message_t -> App -> App.

(** [can_router::noop]: the lambda with an empty body. *)
Definition noop : message_handler := fun _ w => w.

(** [can_router::route] *)
Record route := {
  route_id : id_t;
  route_handler : message_handler
}.

(** The default member initialisers, [id = 0] and [handler = noop], and the
    designated initialisers [.id = ...] and [.handler = ...] that replace
    them. *)
Definition route_default : route :=
  {| route_id := 0; route_handler := noop |}.

Definition with_id (p_id : id_t) (x : route) : route :=
  {| route_id := p_id; route_handler := route_handler x |}.

Definition with_handler (p_handler : message_handler) (x : route) : route :=
  {| route_id := route_id x; route_handler := p_handler |}.

(** Modelled from the spec: the container [hal::static_list] of libhal-util
    is not part of the sources. Following section 6 of the specification it
    is a sequence of nodes in insertion order, each node carrying the
    identity of the [item] handle that owns it; it has a fixed capacity;
    [push_back] appends and fails on a full store; destroying an item
    removes its node and no other; moving the list hands all nodes to the
    destination. *)
Definition static_list := list (item * route).

(** The elements a range-for over the list visits, in order. *)
Definition elements (l : static_list) : list route := l.*2.

(** Modelled from the spec: [static_list::item::~item] unlinks the node of
    this item, wherever it is. *)
Definition unlink (k : item) (l : static_list) : static_list :=
  filter (B := list (item * route)) (λ e, e.1 ≠ k) l.

(** One invocation of a message handler on a frame. *)
Inductive call := Call (h : message_handler) (m : message_t).

(** The effect of a sequence of handler invocations on the application. *)
Definition run_calls (cs : list call) (w : App) : App :=
  foldl (λ w c, match c with Call h m => h m w end) w cs.

(** The loop of [can_router::operator()]:
<<
  for (auto& list_handler : m_handlers) {
    if (p_message.id == list_handler.id) {
      list_handler.handler(p_message);
      return;
    }
  }
>>
    as the sequence of handler calls it performs. *)
Fixpoint dispatch (m_handlers : list route) (p_message : message_t)
  : list call :=
  match m_handlers with
  | [] => []
  | list_handler :: rest =>
      if (msg_id p_message =? route_id list_handler)%N
      then [Call (route_handler list_handler) p_message]
      else dispatch rest p_message
  end.

(** A route that does not take the frame. *)
Definition passes (p_message : message_t) (x : route) : Prop :=
  route_id x ≠ msg_id p_message.

(** ** Router objects and the machine state *)

(** The data members of [can_router]; [m_can = None] is [nullptr]. *)
Record can_router := {
  m_handlers : static_list;
  m_can : option can_ptr
}.

Record machine := {
  objects : gmap addr can_router;
  slot : gmap can_ptr receive_handler;
  next_item : item
}.

Definition init : machine :=
  {| objects := ∅; slot := ∅; next_item := 0 |}.

Definition with_objects (f : gmap addr can_router → gmap addr can_router)
  (s : machine) : machine :=
  {| objects := f (objects s); slot := slot s; next_item := next_item s |}.

(** *** The state-error monad of the operations *)

Definition M (A : Type) := machine → result (A * machine).

#[global] Instance M_ret : MRet M := λ A a s, Ok (a, s).
#[global] Instance M_bind : MBind M := λ A B k c s,
  match c s with
  | Ok (a, s') => k a s'
  | Err e => Err e
  end.
Definition fail {A} (e : error) : M A := λ _, Err e.

(** Access to the object at an address; a dead address is a fault. *)
Definition load (this : addr) : M can_router :=
  λ s, match objects s !! this with
       | Some r => Ok (r, s)
       | None => Err InvalidObject
       end.

Definition store (this : addr) (r : can_router) : M unit :=
  λ s, Ok (tt, with_objects (insert this r) s).

Definition get_handlers (this : addr) : M static_list :=
  r ← load this;
  mret (m_handlers r).

Definition set_handlers (this : addr) (l : static_list) : M unit :=
  r ← load this;
  store this {| m_handlers := l; m_can := m_can r |}.

Definition get_can (this : addr) : M (option can_ptr) :=
  r ← load this;
  mret (m_can r).

Definition set_can (this : addr) (c : option can_ptr) : M unit :=
  r ← load this;
  store this {| m_handlers := m_handlers r; m_can := c |}.

(** [m_can->...]: dereferencing the null pointer is a fault. *)
Definition deref (c : option can_ptr) : M can_ptr :=
  match c with
  | Some p => mret p
  | None => fail NullDereference
  end.

(** Modelled from the spec: [hal::can::on_receive] writes the single
    receive slot of the peripheral; the last writer wins. *)
Definition on_receive (p : can_ptr) (cb : receive_handler) : M unit :=
  λ s, Ok (tt, {| objects := objects s;
                  slot := <[p := cb]> (slot s);
                  next_item := next_item s |}).

(** Storage for a new object: the data members get their default member
    initialisers, [m_handlers{}] and [m_can = nullptr]. *)
Definition alloc (this : addr) : M unit :=
  λ s, match objects s !! this with
       | Some _ => Err InvalidObject
       | None => store this {| m_handlers := []; m_can := None |} s
       end.

Definition dealloc (this : addr) : M unit :=
  λ s, Ok (tt, with_objects (delete this) s).

(** A new item identity. *)
Definition fresh_item : M item :=
  λ s, Ok (next_item s, {| objects := objects s;
                          slot := slot s;
                          next_item := S (next_item s) |}).

(** *** The member functions *)

(** [can_router::can_router(hal::can& p_can)] *)
Definition construct (this : addr) (p_can : can_ptr) : M unit :=
  alloc this ;;
  set_can this (Some p_can) ;;
  c ← get_can this;
  p ← deref c;
  on_receive p (recv_router this).

(** Modelled from the spec: move assignment of [static_list], which
    transfers every node of the source to the destination. *)
Definition static_list_move (this p_other : addr) : M unit :=
  l ← get_handlers p_other;
  set_handlers this l ;;
  set_handlers p_other [].

(** [can_router::operator=(can_router&& p_other)] *)
Definition move_assign (this p_other : addr) : M unit :=
  static_list_move this p_other ;;
  c ← get_can p_other;
  set_can this c ;;
  c' ← get_can this;
  p ← deref c';
  on_receive p (recv_router this) ;;
  set_can p_other None.

(** [can_router::can_router(can_router&& p_other)] *)
Definition move_construct (this p_other : addr) : M unit :=
  alloc this ;;
  move_assign this p_other.

(** [can_router::~can_router()], followed by the release of the object. *)
Definition destroy (this : addr) : M unit :=
  c ← get_can this;
  match c with
  | Some p => on_receive p recv_noop
  | None => mret tt
  end ;;
  dealloc this.

(** [can_router::bus()] *)
Definition bus (this : addr) : M can_ptr :=
  c ← get_can this;
  deref c.

(** Modelled from the spec: [static_list::push_back], which appends a node
    owned by a new item and fails on a full store. *)
Definition push_back (this : addr) (value : route) : M item :=
  l ← get_handlers this;
  if decide (length l < capacity) then
    k ← fresh_item;
    set_handlers this (l ++ [(k, value)]) ;;
    mret k
  else fail CapacityExceeded.

(** [can_router::add_message_callback(hal::can::id_t p_id)] *)
Definition add_message_callback_id (this : addr) (p_id : id_t) : M item :=
  push_back this (with_id p_id route_default).

(** [can_router::add_message_callback(hal::can::id_t p_id,
    message_handler p_handler)] *)
Definition add_message_callback (this : addr) (p_id : id_t)
  (p_handler : message_handler) : M item :=
  push_back this (with_handler p_handler (with_id p_id route_default)).

(** [can_router::handlers()] *)
Definition handlers (this : addr) : M static_list :=
  get_handlers this.

(** [can_router::operator()(const can::message_t& p_message)] *)
Definition call_operator (this : addr) (p_message : message_t)
  : M (list call) :=
  l ← get_handlers this;
  mret (dispatch (elements l) p_message).

(** Modelled from the spec: the destructor of a [route_item], which removes
    the node of that item from the list that holds it. *)
Definition item_destroy (k : item) : M unit :=
  λ s, Ok (tt, with_objects
    (fmap (λ r, {| m_handlers := unlink k (m_handlers r);
                   m_can := m_can r |})) s).

(** ** Operations on the machine *)

(** The logical state of the object at an address, if it is alive. *)
Definition state_of (s : machine) (this : addr) : option lifecycle :=
  match objects s !! this with
  | Some r => Some (match m_can r with Some _ => active | None => detached end)
  | None => None
  end.

(** What application code can do with routers and route items. *)
Inductive op :=
  | Construct (this : addr) (p_can : can_ptr)
  | MoveConstruct (this p_other : addr)
  | MoveAssign (this p_other : addr)
  | Destroy (this : addr)
  | AddMessageCallbackId (this : addr) (p_id : id_t)
  | AddMessageCallback (this : addr) (p_id : id_t)
      (p_handler : message_handler)
  | CallOperator (this : addr) (p_message : message_t)
  | ItemDestroy (k : item).

Definition exec (o : op) : M unit :=
  match o with
  | Construct this p_can => construct this p_can
  | MoveConstruct this p_other => move_construct this p_other
  | MoveAssign this p_other => move_assign this p_other
  | Destroy this => destroy this
  | AddMessageCallbackId this p_id =>
      add_message_callback_id this p_id ;; mret tt
  | AddMessageCallback this p_id p_handler =>
      add_message_callback this p_id p_handler ;; mret tt
  | CallOperator this p_message =>
      call_operator this p_message ;; mret tt
  | ItemDestroy k => item_destroy k
  end.

Fixpoint run (os : list op) : M unit :=
  match os with
  | [] => mret tt
  | o :: os' => exec o ;; run os'
  end.

(** The logical state of an object once a sequence of operations has run
    from the initial machine. *)
Definition state_after (os : list op) (this : addr) : option lifecycle :=
  match run os init with
  | Ok (_, s) => state_of s this
  | Err _ => None
  end.

(** The receive callback of a peripheral once a sequence of operations has
    run from the initial machine. *)
Definition target_after (os : list op) (p_can : can_ptr)
  : option receive_handler :=
  match run os init with
  | Ok (_, s) => slot s !! p_can
  | Err _ => None
  end.

(** A registration request: an identifier, and a handler or none. *)
Definition registration : Type := id_t * option message_handler.

Definition route_of (g : registration) : route :=
  {| route_id := g.1; route_handler := default noop g.2 |}.

Definition register (this : addr) (g : registration) : M item :=
  match g.2 with
  | None => add_message_callback_id this g.1
  | Some h => add_message_callback this g.1 h
  end.

Fixpoint register_all (this : addr) (gs : list registration)
  : M (list item) :=
  match gs with
  | [] => mret []
  | g :: gs' =>
      k ← register this g;
      ks ← register_all this gs';
      mret (k :: ks)
  end.

(** ** Invariants *)

(** The rule of exclusive use: a router is constructed on a peripheral only
    when no live router is bound to that peripheral. *)
Definition exclusive (o : op) (s : machine) : Prop :=
  match o with
  | Construct _ p_can =>
      ∀ a r, objects s !! a = Some r → m_can r ≠ Some p_can
  | _ => True
  end.

Inductive reachable : machine → Prop :=
  | reachable_init : reachable init
  | reachable_step o s s' :
      reachable s → exclusive o s → exec o s = Ok (tt, s') → reachable s'.

(** A router bound to a peripheral is the receive target of that
    peripheral. *)
Definition bound (s : machine) : Prop :=
  ∀ a r p, objects s !! a = Some r → m_can r = Some p →
    slot s !! p = Some (recv_router a).

(** Item identities are minted once: they are below the counter, occur once
    in a list and in one list only. *)
Definition keys (r : can_router) : list item := (m_handlers r).*1.

(** Modelled from the spec: what the peripheral driver does with a frame it
    receives. It calls the callback in its receive slot; a callback that
    wraps a router runs [operator()] of the object at that address, which is
    a fault when the object is gone; [noop] and an empty slot call
    nothing. *)
Definition invoke (cb : receive_handler) (p_message : message_t)
  : M (list call) :=
  match cb with
  | recv_noop => mret []
  | recv_router this => call_operator this p_message
  end.

Definition receive (p_can : can_ptr) (p_message : message_t)
  : M (list call) :=
  λ s, match slot s !! p_can with
       | Some cb => invoke cb p_message s
       | None => Ok ([], s)
       end.

(** A receive slot that names a router names a live router bound to the
    peripheral of that slot. *)
Definition anchored (s : machine) : Prop :=
  ∀ q a, slot s !! q = Some (recv_router a) →
    ∃ r, objects s !! a = Some r ∧ m_can r = Some q.

(** Careful use: exclusive construction, and move assignment only onto a
    detached router other than the source. *)
Definition careful (o : op) (s : machine) : Prop :=
  match o with
  | Construct _ p_can =>
      ∀ a r, objects s !! a = Some r → m_can r ≠ Some p_can
  | MoveAssign this p_other =>
      this ≠ p_other ∧ state_of s this = Some detached
  | _ => True
  end.

Inductive reachable_carefully : machine → Prop :=
  | carefully_init : reachable_carefully init
  | carefully_step o s s' :
      reachable_carefully s → careful o s → exec o s = Ok (tt, s') →
      reachable_carefully s'.

Record wf (s : machine) : Prop := {
  wf_below a r k :
    objects s !! a = Some r → k ∈ keys r → k < next_item s;
  wf_nodup a r :
    objects s !! a = Some r → NoDup (keys r);
  wf_owner a b ra rb k :
    objects s !! a = Some ra → objects s !! b = Some rb →
    k ∈ keys ra → k ∈ keys rb → a = b
}.

End Router.

(** * A sample application

    The scenario of the specification: identifier [0x100] with handler A,
    [0x200] with handler B, [0x100] again with handler C, on one router at
    address 1 bound to peripheral 7. The application state is the log of
    the handlers that ran, each with the identifier it was given. *)

Definition record_call (n : nat) : message_handler (App := list (nat * N)) :=
  λ m w, w ++ [(n, msg_id m)].

Definition frame (i : id_t) : message_t :=
  {| msg_id := i; msg_payload := [] |}.

Definition route_A := {| route_id := 0x100; route_handler := record_call 0 |}.
Definition route_B := {| route_id := 0x200; route_handler := record_call 1 |}.
Definition route_C := {| route_id := 0x100; route_handler := record_call 2 |}.

Definition scenario : list op :=
  [ Construct 1 7;
    AddMessageCallback 1 0x100 (record_call 0);
    AddMessageCallback 1 0x200 (record_call 1);
    AddMessageCallback 1 0x100 (record_call 2) ].

Definition scenario_router : can_router :=
  {| m_handlers := [(0, route_A); (1, route_B); (2, route_C)];
     m_can := Some 7 |}.

Definition scenario_machine : machine :=
  {| objects := {[ 1 := scenario_router ]};
     slot := {[ 7 := recv_router 1 ]};
     next_item := 3 |}.

(** The machine after the router at 1 was moved into new storage at 2. *)
Definition moved_machine : machine :=
  {| objects := {[ 1 := {| m_handlers := []; m_can := None |};
                   2 := scenario_router ]};
     slot := {[ 7 := recv_router 2 ]};
     next_item := 3 |}.

(** A second router, at 2 on peripheral 8, beside the router of the
    scenario. *)
Definition second_router : can_router :=
  {| m_handlers := [(3, route_B)]; m_can := Some 8 |}.

Definition two_routers : machine :=
  {| objects := {[ 1 := scenario_router; 2 := second_router ]};
     slot := {[ 7 := recv_router 1; 8 := recv_router 2 ]};
     next_item := 4 |}.

(** * Properties *)

Section Properties.

Context {App : Type}.
Variable capacity : nat.

Implicit Types (s : machine (App := App)) (r : can_router (App := App)).
Implicit Types (this other : addr) (p q : can_ptr) (k : item).
Implicit Types (msg : message_t) (l : static_list (App := App)).
Implicit Types (rt value : route (App := App)) (w : App).
Implicit Types (pre post rs : list (route (App := App))).

Ltac run_step :=
  cbv [mbind M_bind mret M_ret fail load store alloc dealloc on_receive
       fresh_item deref get_handlers set_handlers get_can set_can
       with_objects];
  cbn [objects slot next_item m_handlers m_can];
  simplify_map_eq.

Ltac run_code := repeat run_step.

(** ** What each member function does to the machine *)

Lemma construct_ok s this p :
  objects s !! this = None →
  construct this p s =
    Ok (tt, {| objects :=
                 <[this := {| m_handlers := []; m_can := Some p |}]>
                   (objects s);
               slot := <[p := recv_router this]> (slot s);
               next_item := next_item s |}).
Proof.
  intros Hnew. unfold construct. run_code.
  by rewrite insert_insert_eq.
Qed.

Lemma construct_alive s this p r :
  objects s !! this = Some r → construct this p s = Err InvalidObject.
Proof. intros Hr. unfold construct. by run_code. Qed.

Lemma move_assign_ok s this other d o p :
  objects s !! this = Some d →
  objects s !! other = Some o →
  m_can o = Some p →
  move_assign this other s =
    Ok (tt, {| objects :=
                 <[other := {| m_handlers := []; m_can := None |}]>
                   (<[this := {| m_handlers := m_handlers o;
                                 m_can := Some p |}]> (objects s));
               slot := <[p := recv_router this]> (slot s);
               next_item := next_item s |}).
Proof.
  intros Hd Ho Hp.
  unfold move_assign, static_list_move.
  destruct (decide (this = other)) as [->|Hne]; run_code.
  - by rewrite !insert_insert_eq.
  - do 3 f_equal. apply map_eq; intros i.
    destruct (decide (i = other)); [by simplify_map_eq|].
    destruct (decide (i = this)); by simplify_map_eq.
Qed.

Lemma move_assign_null s this other d o :
  objects s !! this = Some d →
  objects s !! other = Some o →
  m_can o = None →
  move_assign this other s = Err NullDereference.
Proof.
  intros Hd Ho Hp.
  unfold move_assign, static_list_move.
  destruct (decide (this = other)) as [->|Hne]; by run_code.
Qed.

Lemma move_assign_dead s this other :
  objects s !! this = None ∨ objects s !! other = None →
  move_assign this other s = Err InvalidObject.
Proof.
  unfold move_assign, static_list_move.
  intros [Hd|Ho].
  - destruct (objects s !! other) eqn:Ho; by run_code.
  - by run_code.
Qed.

Lemma destroy_ok s this r :
  objects s !! this = Some r →
  destroy this s =
    Ok (tt, {| objects := delete this (objects s);
               slot := match m_can r with
                       | Some p => <[p := recv_noop]> (slot s)
                       | None => slot s
                       end;
               next_item := next_item s |}).
Proof.
  intros Hr. unfold destroy. run_code.
  destruct (m_can r); by run_code.
Qed.

Lemma destroy_dead s this :
  objects s !! this = None → destroy this s = Err InvalidObject.
Proof. intros Hr. unfold destroy. by run_code. Qed.

Lemma move_construct_ok s this other o p :
  objects s !! this = None →
  objects s !! other = Some o →
  m_can o = Some p →
  move_construct this other s =
    Ok (tt, {| objects :=
                 <[other := {| m_handlers := []; m_can := None |}]>
                   (<[this := {| m_handlers := m_handlers o;
                                 m_can := Some p |}]> (objects s));
               slot := <[p := recv_router this]> (slot s);
               next_item := next_item s |}).
Proof.
  intros Hd Ho Hp.
  assert (this ≠ other) as Hne by congruence.
  unfold move_construct.
  unfold mbind at 1, M_bind, alloc, store. rewrite Hd.
  erewrite move_assign_ok;
    [|by cbn; rewrite lookup_insert_eq
     |by cbn; rewrite lookup_insert_ne|done].
  cbn. by rewrite insert_insert_eq.
Qed.

Lemma move_construct_null s this other o :
  objects s !! this = None →
  objects s !! other = Some o →
  m_can o = None →
  move_construct this other s = Err NullDereference.
Proof.
  intros Hd Ho Hp.
  assert (this ≠ other) as Hne by congruence.
  unfold move_construct.
  unfold mbind at 1, M_bind, alloc, store. rewrite Hd.
  erewrite move_assign_null;
    [done|by cbn; rewrite lookup_insert_eq
         |by cbn; rewrite lookup_insert_ne|done].
Qed.

Lemma move_assign_inv s this other u s' :
  move_assign this other s = Ok (u, s') →
  ∃ d o p,
    objects s !! this = Some d ∧ objects s !! other = Some o ∧
    m_can o = Some p ∧
    s' = {| objects :=
              <[other := {| m_handlers := []; m_can := None |}]>
                (<[this := {| m_handlers := m_handlers o;
                              m_can := Some p |}]> (objects s));
            slot := <[p := recv_router this]> (slot s);
            next_item := next_item s |}.
Proof.
  intros Hrun.
  destruct (objects s !! this) as [d|] eqn:Hd;
    [|by rewrite move_assign_dead in Hrun by auto].
  destruct (objects s !! other) as [o|] eqn:Ho;
    [|by rewrite move_assign_dead in Hrun by auto].
  destruct (m_can o) as [p|] eqn:Hp;
    [|by rewrite (move_assign_null _ _ _ d o) in Hrun].
  rewrite (move_assign_ok _ _ _ d o p) in Hrun by done.
  exists d, o, p. by simplify_eq.
Qed.

Lemma move_construct_inv s this other u s' :
  move_construct this other s = Ok (u, s') →
  ∃ o p,
    objects s !! this = None ∧ objects s !! other = Some o ∧
    m_can o = Some p ∧
    s' = {| objects :=
              <[other := {| m_handlers := []; m_can := None |}]>
                (<[this := {| m_handlers := m_handlers o;
                              m_can := Some p |}]> (objects s));
            slot := <[p := recv_router this]> (slot s);
            next_item := next_item s |}.
Proof.
  unfold move_construct. unfold mbind at 1, M_bind, alloc, store.
  destruct (objects s !! this) as [d|] eqn:Hd; [done|].
  intros (d & o & p & Hd' & Ho & Hp & ->)%move_assign_inv.
  cbn [objects with_objects slot next_item] in *.
  destruct (decide (other = this)) as [->|Hne].
  { rewrite lookup_insert_eq in Ho. by simplify_eq. }
  rewrite lookup_insert_ne in Ho by done.
  exists o, p. by rewrite insert_insert_eq.
Qed.

Lemma construct_inv s this p u s' :
  construct this p s = Ok (u, s') →
  objects s !! this = None ∧
  s' = {| objects :=
            <[this := {| m_handlers := []; m_can := Some p |}]> (objects s);
          slot := <[p := recv_router this]> (slot s);
          next_item := next_item s |}.
Proof.
  intros Hrun. destruct (objects s !! this) as [r|] eqn:Hr.
  - by rewrite (construct_alive _ _ _ r) in Hrun.
  - rewrite construct_ok in Hrun by done. by simplify_eq.
Qed.

Lemma destroy_inv s this u s' :
  destroy this s = Ok (u, s') →
  ∃ r, objects s !! this = Some r ∧
    s' = {| objects := delete this (objects s);
            slot := match m_can r with
                    | Some p => <[p := recv_noop]> (slot s)
                    | None => slot s
                    end;
            next_item := next_item s |}.
Proof.
  intros Hrun. destruct (objects s !! this) as [r|] eqn:Hr.
  - rewrite (destroy_ok _ _ r) in Hrun by done. exists r. by simplify_eq.
  - by rewrite destroy_dead in Hrun.
Qed.

Lemma push_back_ok s this r value :
  objects s !! this = Some r →
  length (m_handlers r) < capacity →
  push_back capacity this value s =
    Ok (next_item s,
        {| objects :=
             <[this := {| m_handlers :=
                            m_handlers r ++ [(next_item s, value)];
                          m_can := m_can r |}]> (objects s);
           slot := slot s;
           next_item := S (next_item s) |}).
Proof.
  intros Hr Hlt. unfold push_back. by run_code.
Qed.

Lemma push_back_full s this r value :
  objects s !! this = Some r →
  capacity ≤ length (m_handlers r) →
  push_back capacity this value s = Err CapacityExceeded.
Proof.
  intros Hr Hge. unfold push_back. run_code.
  repeat case_decide; (done || lia).
Qed.

Lemma push_back_dead s this value :
  objects s !! this = None →
  push_back capacity this value s = Err InvalidObject.
Proof. intros Hr. unfold push_back. by run_code. Qed.

Lemma call_operator_ok s this r msg :
  objects s !! this = Some r →
  call_operator this msg s =
    Ok (dispatch (elements (m_handlers r)) msg, s).
Proof. intros Hr. unfold call_operator. by run_code. Qed.

Lemma call_operator_dead s this msg :
  objects s !! this = None →
  call_operator this msg s = Err InvalidObject.
Proof. intros Hr. unfold call_operator. by run_code. Qed.

(** ** Dispatch *)

Lemma dispatch_skip pre rest msg :
  Forall (passes msg) pre →
  dispatch (pre ++ rest) msg = dispatch rest msg.
Proof.
  induction 1 as [|x pre Hx _ IH]; [done|].
  cbn [app dispatch].
  destruct (N.eqb_spec (msg_id msg) (route_id x)) as [Heq|_]; [|exact IH].
  by destruct Hx.
Qed.

Lemma dispatch_hit rt post msg :
  route_id rt = msg_id msg →
  dispatch (rt :: post) msg = [Call (route_handler rt) msg].
Proof. intros Heq. cbn [dispatch]. by rewrite Heq, N.eqb_refl. Qed.

Lemma dispatch_none rs msg :
  Forall (passes msg) rs → dispatch rs msg = [].
Proof.
  intros Hrs. rewrite <- (app_nil_r rs). by rewrite dispatch_skip.
Qed.

(** Every store either lets the frame pass or splits at its first match. *)
Lemma dispatch_cases rs msg :
  Forall (passes msg) rs ∨
  ∃ pre rt post, rs = pre ++ rt :: post ∧
    Forall (passes msg) pre ∧ route_id rt = msg_id msg.
Proof.
  induction rs as [|x rs IH]; [by left|].
  destruct (decide (route_id x = msg_id msg)) as [Heq|Hne].
  - right. by exists [], x, rs.
  - destruct IH as [Hall|(pre & rt & post & -> & Hpre & Heq)].
    + left. by constructor.
    + right. exists (x :: pre), rt, post. split_and!; [done| |done].
      by constructor.
Qed.

(** C1. For every frame and every content of the route store,
    [operator()] walks the routes in the order of the list and, at the first
    route whose identifier is the frame's, calls the handler of that route
    with the frame and returns: it makes this one call and no other,
    whatever routes follow (routes with the same identifier included), and
    it leaves the routers and the peripherals as they were. *)
Theorem call_operator_first_match s this r pre rt post msg :
  objects s !! this = Some r →
  elements (m_handlers r) = pre ++ rt :: post →
  Forall (passes msg) pre →
  route_id rt = msg_id msg →
  call_operator this msg s = Ok ([Call (route_handler rt) msg], s) ∧
  ∀ w, run_calls [Call (route_handler rt) msg] w = route_handler rt msg w.
Proof.
  intros Hr Hsplit Hpre Heq. split; [|done].
  rewrite (call_operator_ok _ _ _ _ Hr), Hsplit.
  by rewrite dispatch_skip, dispatch_hit.
Qed.

(** C2. A frame whose identifier is the identifier of no registered route
    makes [operator()] call no handler and return normally: the frame is
    dropped, nothing else changes and no fault is raised. *)
Theorem call_operator_no_match s this r msg :
  objects s !! this = Some r →
  Forall (passes msg) (elements (m_handlers r)) →
  call_operator this msg s = Ok ([], s) ∧
  ∀ w, run_calls (dispatch (elements (m_handlers r)) msg) w = w.
Proof.
  intros Hr Hall.
  rewrite (call_operator_ok _ _ _ _ Hr), dispatch_none by done.
  done.
Qed.

(** ** Registration *)

Lemma register_push_back this (g : registration (App := App)) :
  register capacity this g = push_back capacity this (route_of g).
Proof. by destruct g as [p_id [h|]]. Qed.

Lemma register_all_ok this (gs : list (registration (App := App))) : ∀ s r,
  objects s !! this = Some r →
  length (m_handlers r) + length gs ≤ capacity →
  ∃ ks s' r',
    register_all capacity this gs s = Ok (ks, s') ∧
    objects s' !! this = Some r' ∧
    m_handlers r' = m_handlers r ++ zip ks (route_of <$> gs) ∧
    length ks = length gs ∧
    m_can r' = m_can r.
Proof.
  induction gs as [|g gs IH]; intros s r Hr Hlen.
  - exists [], s, r. by rewrite app_nil_r.
  - cbn [length] in Hlen.
    destruct (IH
      {| objects := <[this := {| m_handlers :=
                                   m_handlers r ++ [(next_item s, route_of g)];
                                 m_can := m_can r |}]> (objects s);
         slot := slot s; next_item := S (next_item s) |}
      {| m_handlers := m_handlers r ++ [(next_item s, route_of g)];
         m_can := m_can r |})
      as (ks & s' & r' & Hrun & Hr' & Hl' & Hks & Hc').
    { cbn. by rewrite lookup_insert_eq. }
    { cbn. rewrite length_app. cbn. lia. }
    exists (next_item s :: ks), s', r'. split_and!; [|done| |by cbn; f_equal|done].
    + cbn [register_all]. unfold mbind at 1, M_bind.
      rewrite register_push_back, (push_back_ok _ _ r) by (done || lia).
      unfold mbind at 1, M_bind. by rewrite Hrun.
    + rewrite Hl'. cbn. by rewrite <- app_assoc.
Qed.

(** C3. From a router whose route store has room for them, every call of a
    sequence of registrations succeeds and returns an item, and the store then
    holds the old routes followed by the new ones in the order of the calls;
    when the sequence fills the store to its capacity, any further
    registration fails with [CapacityExceeded]: no route is dropped
    silently. *)
Theorem add_message_callback_capacity s this r
    (gs : list (registration (App := App))) :
  objects s !! this = Some r →
  length (m_handlers r) + length gs ≤ capacity →
  ∃ ks s' r',
    register_all capacity this gs s = Ok (ks, s') ∧
    length ks = length gs ∧
    objects s' !! this = Some r' ∧
    elements (m_handlers r') = elements (m_handlers r) ++ (route_of <$> gs) ∧
    keys r' = keys r ++ ks ∧
    (length (m_handlers r) + length gs = capacity →
     ∀ g, register capacity this g s' = Err CapacityExceeded).
Proof.
  intros Hr Hlen.
  destruct (register_all_ok this gs s r Hr Hlen)
    as (ks & s' & r' & Hrun & Hr' & Hl' & Hks & _).
  exists ks, s', r'. split_and!; [done..| | |].
  - unfold elements. rewrite Hl', fmap_app. f_equal.
    apply snd_zip. rewrite length_fmap. lia.
  - unfold keys. rewrite Hl', fmap_app. f_equal.
    apply fst_zip. rewrite length_fmap. lia.
  - intros Hfull g. rewrite register_push_back.
    apply (push_back_full _ _ r'); [done|].
    rewrite Hl', length_app, length_zip_with, length_fmap. lia.
Qed.

(** C8. Registration with an identifier alone is registration with that
    identifier and the handler [noop]: both overloads are the same
    operation. With room in the store it appends the route made of the
    identifier and [noop], and a frame dispatched to that route changes
    nothing: the one handler called is [noop]. *)
Theorem add_message_callback_id_noop s this r p_id :
  objects s !! this = Some r →
  length (m_handlers r) < capacity →
  add_message_callback_id (App := App) capacity this p_id =
    add_message_callback capacity this p_id noop ∧
  ∃ k s' r',
    add_message_callback_id capacity this p_id s = Ok (k, s') ∧
    objects s' !! this = Some r' ∧
    m_handlers r' =
      m_handlers r ++ [(k, {| route_id := p_id; route_handler := noop |})] ∧
    m_can r' = m_can r ∧
    ∀ msg, msg_id msg = p_id →
      Forall (passes msg) (elements (m_handlers r)) →
      call_operator this msg s' = Ok ([Call noop msg], s') ∧
      ∀ w, run_calls [Call noop msg] w = w.
Proof.
  intros Hr Hlt. split; [done|].
  unfold add_message_callback_id. rewrite (push_back_ok _ _ r) by done.
  eexists _, _, _. split_and!; [done|by cbn; rewrite lookup_insert_eq|done..|].
  intros msg Hid Hpre. split; [|done].
  erewrite call_operator_ok by (by cbn; rewrite lookup_insert_eq).
  unfold elements in *. cbn [m_handlers]. rewrite fmap_app.
  rewrite dispatch_skip by done. cbn [fmap list_fmap snd].
  by rewrite dispatch_hit.
Qed.

(** ** Moving and destroying routers *)

(** C4. Moving an active router [other], bound to the peripheral [p], into
    a different object [this] (by move assignment when [this] is alive, by
    move construction when it is new storage) leaves [this] with the list of
    [other] as it was, item for item with the same identifiers and handlers,
    and bound to [p]; makes [this] the receive callback of [p]; and leaves
    [other] empty with a null peripheral pointer, so that it is detached and
    its destructor does not touch any receive callback. *)
Theorem move_transfers_routes s this other o p :
  objects s !! other = Some o →
  m_can o = Some p →
  this ≠ other →
  ∃ s',
    (is_Some (objects s !! this) → move_assign this other s = Ok (tt, s')) ∧
    (objects s !! this = None → move_construct this other s = Ok (tt, s')) ∧
    objects s' !! this =
      Some {| m_handlers := m_handlers o; m_can := Some p |} ∧
    objects s' !! other = Some {| m_handlers := []; m_can := None |} ∧
    (∀ a, a ≠ this → a ≠ other → objects s' !! a = objects s !! a) ∧
    slot s' = <[p := recv_router this]> (slot s) ∧
    slot s' !! p = Some (recv_router this) ∧
    state_of s' other = Some detached ∧
    ∃ s'', destroy other s' = Ok (tt, s'') ∧ slot s'' = slot s'.
Proof.
  intros Ho Hp Hne.
  eexists {| objects := _; slot := _; next_item := _ |}.
  split; [intros [d Hd]; by apply (move_assign_ok _ _ _ d o p)|].
  split; [intros Hd; by apply (move_construct_ok _ _ _ o p)|].
  cbn [objects slot].
  assert (∀ X : gmap addr (can_router (App := App)),
    <[other := {| m_handlers := []; m_can := None |}]> X !! other =
    Some {| m_handlers := []; m_can := None |}) as Hother
    by (intros; apply lookup_insert_eq).
  split_and!.
  - by rewrite lookup_insert_ne, lookup_insert_eq.
  - apply Hother.
  - intros a ??. by rewrite !lookup_insert_ne.
  - done.
  - apply lookup_insert_eq.
  - unfold state_of. cbn [objects]. by rewrite Hother.
  - eexists. split; [by eapply destroy_ok; cbn [objects]|done].
Qed.


(** C9. On a router that has just been moved from, [operator()] is safe and
    does nothing: the move left its list empty, and the dispatch reads the
    list only, never [m_can], so it calls no handler and raises no fault
    although the peripheral pointer is null. *)
Theorem call_operator_moved_from s this other s' msg :
  this ≠ other →
  move_assign this other s = Ok (tt, s') ∨
  move_construct this other s = Ok (tt, s') →
  state_of s' other = Some detached ∧
  bus other s' = Err NullDereference ∧
  call_operator other msg s' = Ok ([], s').
Proof.
  intros Hne Hmove.
  assert (objects s' !! other =
          Some {| m_handlers := []; m_can := None |}) as Hother.
  { destruct Hmove as [Hrun|Hrun].
    - apply move_assign_inv in Hrun as (d & o & p & _ & _ & _ & ->).
      apply lookup_insert_eq.
    - apply move_construct_inv in Hrun as (o & p & _ & _ & _ & ->).
      apply lookup_insert_eq. }
  split_and!.
  - unfold state_of. by rewrite Hother.
  - unfold bus. by run_code.
  - by rewrite (call_operator_ok _ _ _ _ Hother).
Qed.

(** C10. A move needs an active source. With the objects involved alive,
    move assignment and move construction complete exactly when the source
    holds a peripheral pointer that is not null; from a detached source they
    dereference the null pointer. *)
Theorem move_requires_active_source s this other o :
  objects s !! other = Some o →
  (is_Some (objects s !! this) →
     ((∃ s', move_assign this other s = Ok (tt, s')) ↔ is_Some (m_can o)) ∧
     (m_can o = None → move_assign this other s = Err NullDereference)) ∧
  (objects s !! this = None →
     ((∃ s', move_construct this other s = Ok (tt, s')) ↔ is_Some (m_can o)) ∧
     (m_can o = None → move_construct this other s = Err NullDereference)).
Proof.
  intros Ho. split.
  - intros [d Hd]. split; [|by apply (move_assign_null _ _ _ d)].
    split.
    + intros [s' (? & ? & p & _ & ? & ? & _)%move_assign_inv].
      by simplify_eq.
    + intros [p Hp]. eexists. by apply (move_assign_ok _ _ _ d o p).
  - intros Hd. split; [|by apply move_construct_null].
    split.
    + intros [s' (? & p & _ & ? & ? & _)%move_construct_inv].
      by simplify_eq.
    + intros [p Hp]. eexists. by apply (move_construct_ok _ _ _ o p).
Qed.

(** ** Items *)

Lemma push_back_inv s this value k s' :
  push_back capacity this value s = Ok (k, s') →
  ∃ r, objects s !! this = Some r ∧
    length (m_handlers r) < capacity ∧
    k = next_item s ∧
    s' = {| objects :=
              <[this := {| m_handlers :=
                             m_handlers r ++ [(next_item s, value)];
                           m_can := m_can r |}]> (objects s);
            slot := slot s;
            next_item := S (next_item s) |}.
Proof.
  intros Hrun. destruct (objects s !! this) as [r|] eqn:Hr;
    [|by rewrite push_back_dead in Hrun].
  destruct (decide (length (m_handlers r) < capacity)) as [Hlt|Hge].
  - rewrite (push_back_ok _ _ r) in Hrun by done. exists r. by simplify_eq.
  - rewrite (push_back_full _ _ r) in Hrun by (done || lia). done.
Qed.

Lemma call_operator_inv s this msg cs s' :
  call_operator this msg s = Ok (cs, s') → s' = s.
Proof.
  intros Hrun. destruct (objects s !! this) as [r|] eqn:Hr.
  - rewrite (call_operator_ok _ _ r) in Hrun by done. by simplify_eq.
  - by rewrite call_operator_dead in Hrun.
Qed.

Lemma keys_unlink k l : (unlink k l).*1 = filter (λ k', k' ≠ k) l.*1.
Proof.
  unfold unlink. induction l as [|[k' x] l IH]; [done|].
  rewrite fmap_cons, !filter_cons. cbn [fst].
  destruct (decide (k' ≠ k)); [|done]. by rewrite <- IH.
Qed.

Lemma unlink_absent k l : k ∉ l.*1 → unlink k l = l.
Proof.
  unfold unlink. induction l as [|[k' x] l IH]; [done|].
  rewrite fmap_cons, not_elem_of_cons. cbn [fst]. intros [Hne Hl].
  rewrite filter_cons. cbn [fst].
  destruct (decide (k' ≠ k)); [by rewrite IH|naive_solver].
Qed.

Lemma unlink_present k (x : route (App := App)) before after :
  NoDup (before ++ (k, x) :: after).*1 →
  unlink k (before ++ (k, x) :: after) = before ++ after.
Proof.
  rewrite fmap_app, fmap_cons. cbn [fst].
  intros (Hbefore & Hnot & Hafter)%NoDup_app.
  apply NoDup_cons in Hafter as [Hafter _].
  unfold unlink. rewrite filter_app, filter_cons. cbn [fst].
  destruct (decide (k ≠ k)); [done|].
  fold (unlink k before). fold (unlink k after).
  rewrite !unlink_absent; [done..|].
  intros Hin. apply (Hnot k Hin). by left.
Qed.

Lemma object_eta r : {| m_handlers := m_handlers r; m_can := m_can r |} = r.
Proof. by destruct r. Qed.

Lemma wf_init : wf (init (App := App)).
Proof. by split; intros *; cbn; rewrite ?lookup_empty. Qed.

Ltac split_lookups :=
  repeat match goal with
  | H : <[_ := _]> _ !! _ = Some _ |- _ =>
      rewrite lookup_insert in H; case_decide; simplify_eq
  | H : delete _ _ !! _ = Some _ |- _ =>
      rewrite lookup_delete in H; case_decide; simplify_eq
  | H : _ ∈ keys {| m_handlers := _; m_can := _ |} |- _ =>
      unfold keys in H; cbn [m_handlers fmap list_fmap] in H
  | H : _ ∈ [] |- _ => by apply elem_of_nil in H
  end.

Lemma wf_moved s this other o p :
  wf s →
  objects s !! other = Some o →
  wf {| objects :=
          <[other := {| m_handlers := []; m_can := None |}]>
            (<[this := {| m_handlers := m_handlers o;
                          m_can := Some p |}]> (objects s));
        slot := <[p := recv_router this]> (slot s);
        next_item := next_item s |}.
Proof.
  intros [Hbelow Hnodup Howner] Ho.
  split; cbn [objects next_item].
  - intros a r k Hr Hk. split_lookups; eauto.
  - intros a r Hr. split_lookups; eauto.
    + unfold keys. cbn. constructor.
    + exact (Hnodup other o Ho).
  - intros a b ra rb k Ha Hb Hka Hkb. split_lookups; eauto.
    + exfalso. eauto using eq_sym.
    + exfalso. eauto.
Qed.

Lemma wf_pushed s this r value :
  wf s →
  objects s !! this = Some r →
  wf {| objects :=
          <[this := {| m_handlers := m_handlers r ++ [(next_item s, value)];
                       m_can := m_can r |}]> (objects s);
        slot := slot s;
        next_item := S (next_item s) |}.
Proof.
  intros [Hbelow Hnodup Howner] Hr.
  assert (∀ k, k ∈ (m_handlers r ++ [(next_item s, value)]).*1 →
               k ∈ keys r ∨ k = next_item s) as Hnew.
  { intros k. rewrite fmap_app, elem_of_app. cbn. rewrite list_elem_of_singleton.
    tauto. }
  split; cbn [objects next_item].
  - intros a r' k Hr' Hk. split_lookups.
    + apply Hnew in Hk as [Hk| ->]; [|lia]. specialize (Hbelow _ _ _ Hr Hk). lia.
    + specialize (Hbelow _ _ _ Hr' Hk). lia.
  - intros a r' Hr'. split_lookups; eauto.
    unfold keys. cbn [m_handlers]. rewrite fmap_app. apply NoDup_app.
    split_and!; [by apply (Hnodup a)| |apply NoDup_singleton].
    intros k Hk. cbn. rewrite list_elem_of_singleton. intros ->.
    specialize (Hbelow _ _ _ Hr Hk). lia.
  - intros a b ra rb k Ha Hb Hka Hkb. split_lookups; eauto.
    all: match goal with
         | H : _ ∈ (_ ++ _).*1 |- _ => apply Hnew in H as [H| ->]; [eauto|]
         end.
    all: match goal with
         | Hk : next_item _ ∈ keys ?r', Hr' : objects _ !! _ = Some ?r' |- _ =>
             specialize (Hbelow _ _ _ Hr' Hk); lia
         end.
Qed.

Lemma wf_unlinked s k :
  wf s →
  wf (with_objects
        (fmap (λ r, {| m_handlers := unlink k (m_handlers r);
                       m_can := m_can r |})) s).
Proof.
  intros [Hbelow Hnodup Howner].
  assert (∀ r k', k' ∈ keys {| m_handlers := unlink k (m_handlers r);
                               m_can := m_can r |} → k' ∈ keys r) as Hsub.
  { intros r k'. unfold keys. cbn [m_handlers]. rewrite keys_unlink.
    by intros [_ ?]%list_elem_of_filter. }
  split; cbn [objects next_item with_objects].
  - intros a r' k' (r & <- & Hr)%lookup_fmap_Some Hk. eauto.
  - intros a r' (r & <- & Hr)%lookup_fmap_Some.
    unfold keys. cbn [m_handlers]. rewrite keys_unlink.
    by apply NoDup_filter, (Hnodup a).
  - intros a b ra rb k' (ra' & <- & Ha)%lookup_fmap_Some
      (rb' & <- & Hb)%lookup_fmap_Some Hka Hkb. eauto.
Qed.

Lemma wf_exec o s s' :
  wf s → exec capacity o s = Ok (tt, s') → wf s'.
Proof.
  intros Hwf Hrun. destruct o; cbn [exec] in Hrun.
  - apply construct_inv in Hrun as [Hnew ->].
    destruct Hwf as [Hbelow Hnodup Howner].
    split; cbn [objects next_item].
    + intros a r k Hr Hk. split_lookups; eauto.
    + intros a r Hr. split_lookups; eauto. unfold keys. cbn. constructor.
    + intros a b ra rb k Ha Hb Hka Hkb. split_lookups; eauto.
  - apply move_construct_inv in Hrun as (r & p & _ & Hr & _ & ->).
    by apply wf_moved.
  - apply move_assign_inv in Hrun as (d & r & p & _ & Hr & _ & ->).
    by apply wf_moved.
  - apply destroy_inv in Hrun as (r & Hr & ->).
    destruct Hwf as [Hbelow Hnodup Howner].
    split; cbn [objects next_item].
    + intros a r' k Hr' Hk. split_lookups; eauto.
    + intros a r' Hr'. split_lookups; eauto.
    + intros a b ra rb k Ha Hb Hka Hkb. split_lookups; eauto.
  - unfold mbind, M_bind, add_message_callback_id in Hrun.
    destruct (push_back _ _ _ s) as [[k s1]|e] eqn:Hpush; [|done].
    apply push_back_inv in Hpush as (r & Hr & _ & _ & ->).
    cbv [mret M_ret] in Hrun. simplify_eq. by apply wf_pushed.
  - unfold mbind, M_bind, add_message_callback in Hrun.
    destruct (push_back _ _ _ s) as [[k s1]|e] eqn:Hpush; [|done].
    apply push_back_inv in Hpush as (r & Hr & _ & _ & ->).
    cbv [mret M_ret] in Hrun. simplify_eq. by apply wf_pushed.
  - unfold mbind, M_bind in Hrun.
    destruct (call_operator _ _ s) as [[cs s1]|e] eqn:Hcall; [|done].
    apply call_operator_inv in Hcall as ->.
    cbv [mret M_ret] in Hrun. by simplify_eq.
  - unfold item_destroy in Hrun. simplify_eq. by apply wf_unlinked.
Qed.

Lemma wf_run os : ∀ s s',
  wf s → run capacity os s = Ok (tt, s') → wf s'.
Proof.
  induction os as [|o os IH]; intros s s' Hwf Hrun.
  - cbv [run mret M_ret] in Hrun. by simplify_eq.
  - cbn [run] in Hrun. unfold mbind, M_bind in Hrun.
    destruct (exec _ o s) as [[[] s1]|e] eqn:Hexec; [|done].
    eauto using wf_exec.
Qed.

(** C7. Destroying a route item removes the node of that item from the list
    that holds it and nothing else: the routes before and after it keep
    their identifiers, handlers and order, every other router and every
    receive callback is untouched. A frame that the removed route took and
    no other route takes is then dropped; a frame that the removed route
    took and a later route takes as well then goes to the first such later
    route. *)
Theorem item_destroy_removes_route os s this r before k rt after :
  run capacity os init = Ok (tt, s) →
  objects s !! this = Some r →
  m_handlers r = before ++ (k, rt) :: after →
  ∃ s',
    item_destroy k s = Ok (tt, s') ∧
    objects s' !! this =
      Some {| m_handlers := before ++ after; m_can := m_can r |} ∧
    (∀ a, a ≠ this → objects s' !! a = objects s !! a) ∧
    slot s' = slot s ∧
    ∀ msg,
      route_id rt = msg_id msg →
      Forall (passes msg) (elements before) →
      call_operator this msg s = Ok ([Call (route_handler rt) msg], s) ∧
      (Forall (passes msg) (elements after) →
       call_operator this msg s' = Ok ([], s')) ∧
      (∀ mid rt2 post,
         elements after = mid ++ rt2 :: post →
         Forall (passes msg) mid →
         route_id rt2 = msg_id msg →
         call_operator this msg s' =
           Ok ([Call (route_handler rt2) msg], s')).
Proof.
  intros Hrun Hr Hl.
  pose proof (wf_run _ _ _ wf_init Hrun) as [_ Hnodup Howner].
  pose proof (Hnodup _ _ Hr) as Hnd. unfold keys in Hnd. rewrite Hl in Hnd.
  assert (objects (with_objects
            (fmap (λ r, {| m_handlers := unlink k (m_handlers r);
                           m_can := m_can r |})) s) !! this =
          Some {| m_handlers := before ++ after; m_can := m_can r |}) as Hthis.
  { cbn [with_objects objects]. rewrite lookup_fmap, Hr. cbn.
    by rewrite Hl, unlink_present. }
  eexists. split; [done|]. split; [exact Hthis|]. split_and!; [|done|].
  - intros a Ha. cbn [with_objects objects]. rewrite lookup_fmap.
    destruct (objects s !! a) as [ra|] eqn:Hra; [|done]. cbn.
    rewrite unlink_absent, object_eta; [done|].
    intros Hk. apply Ha, (Howner a this ra r k); [done..|].
    unfold keys. rewrite Hl, fmap_app, fmap_cons, elem_of_app, elem_of_cons.
    auto.
  - intros msg Hid Hbefore.
    rewrite (call_operator_ok _ _ _ _ Hr), (call_operator_ok _ _ _ _ Hthis).
    unfold elements in *. cbn [m_handlers].
    rewrite Hl, !fmap_app, fmap_cons, !dispatch_skip by done.
    split_and!.
    + by rewrite dispatch_hit.
    + intros Hafter. by rewrite dispatch_none.
    + intros mid rt2 post -> Hmid Hid2.
      by rewrite dispatch_skip, dispatch_hit.
Qed.

(** ** The life cycle of a router *)

Lemma bound_init : bound (init (App := App)).
Proof. intros a r p. cbn. by rewrite lookup_empty. Qed.

Lemma bound_moved s this other o p :
  bound s →
  objects s !! other = Some o →
  m_can o = Some p →
  bound {| objects :=
             <[other := {| m_handlers := []; m_can := None |}]>
               (<[this := {| m_handlers := m_handlers o;
                             m_can := Some p |}]> (objects s));
           slot := <[p := recv_router this]> (slot s);
           next_item := next_item s |}.
Proof.
  intros Hb Ho Hp a r q Hr Hq. cbn [objects slot] in *.
  rewrite lookup_insert in Hr. case_decide; simplify_eq; try done.
  rewrite lookup_insert in Hr. case_decide; simplify_eq.
  { cbn in Hq. simplify_eq. apply lookup_insert_eq. }
  destruct (decide (p = q)) as [->|Hpq]; [|by rewrite lookup_insert_ne; eauto].
  pose proof (Hb _ _ _ Ho Hp). pose proof (Hb _ _ _ Hr Hq). congruence.
Qed.

Lemma bound_exec o s s' :
  bound s → exclusive o s → exec capacity o s = Ok (tt, s') → bound s'.
Proof.
  intros Hb Hex Hrun. destruct o; cbn [exec exclusive] in *.
  - apply construct_inv in Hrun as [Hnew ->].
    intros a r q Hr Hq. cbn [objects slot] in *.
    rewrite lookup_insert in Hr. case_decide; simplify_eq.
    + cbn in Hq. simplify_eq. apply lookup_insert_eq.
    + rewrite lookup_insert_ne; [eauto|]. intros ->. by eapply Hex.
  - apply move_construct_inv in Hrun as (r & p & _ & Hr & Hp & ->).
    by apply bound_moved.
  - apply move_assign_inv in Hrun as (d & r & p & _ & Hr & Hp & ->).
    by apply bound_moved.
  - apply destroy_inv in Hrun as (r & Hr & ->).
    intros a ra q Ha Hq. cbn [objects slot] in *.
    rewrite lookup_delete in Ha. case_decide; simplify_eq.
    destruct (m_can r) as [p|] eqn:Hp; [|eauto].
    destruct (decide (p = q)) as [->|Hpq]; [|by rewrite lookup_insert_ne; eauto].
    pose proof (Hb _ _ _ Hr Hp). pose proof (Hb _ _ _ Ha Hq). congruence.
  - unfold mbind, M_bind, add_message_callback_id in Hrun.
    destruct (push_back _ _ _ s) as [[k s1]|e] eqn:Hpush; [|done].
    apply push_back_inv in Hpush as (r & Hr & _ & _ & ->).
    cbv [mret M_ret] in Hrun. simplify_eq.
    intros a ra q Ha Hq. cbn [objects slot] in *.
    rewrite lookup_insert in Ha. case_decide; simplify_eq; eauto.
  - unfold mbind, M_bind, add_message_callback in Hrun.
    destruct (push_back _ _ _ s) as [[k s1]|e] eqn:Hpush; [|done].
    apply push_back_inv in Hpush as (r & Hr & _ & _ & ->).
    cbv [mret M_ret] in Hrun. simplify_eq.
    intros a ra q Ha Hq. cbn [objects slot] in *.
    rewrite lookup_insert in Ha. case_decide; simplify_eq; eauto.
  - unfold mbind, M_bind in Hrun.
    destruct (call_operator _ _ s) as [[cs s1]|e] eqn:Hcall; [|done].
    apply call_operator_inv in Hcall as ->.
    cbv [mret M_ret] in Hrun. by simplify_eq.
  - unfold item_destroy in Hrun. simplify_eq.
    intros a ra q (r & <- & Ha)%lookup_fmap_Some Hq. cbn in *. eauto.
Qed.

Lemma reachable_bound s : reachable capacity s → bound s.
Proof. induction 1; eauto using bound_init, bound_exec. Qed.

(** Operations that do not move, construct or destroy keep every state. *)
Lemma state_of_insert_same s this r r' a :
  objects s !! this = Some r →
  m_can r' = m_can r →
  state_of {| objects := <[this := r']> (objects s);
              slot := slot s; next_item := S (next_item s) |} a =
  state_of s a.
Proof.
  intros Hr Hc. unfold state_of. cbn [objects].
  rewrite lookup_insert. case_decide; simplify_eq; [|done].
  by rewrite Hr, Hc.
Qed.

Lemma state_of_moved s this other o p a :
  objects s !! other = Some o →
  m_can o = Some p →
  state_of {| objects :=
                <[other := {| m_handlers := []; m_can := None |}]>
                  (<[this := {| m_handlers := m_handlers o;
                                m_can := Some p |}]> (objects s));
              slot := <[p := recv_router this]> (slot s);
              next_item := next_item s |} a =
  if decide (a = other) then Some detached
  else if decide (a = this) then Some active
  else state_of s a.
Proof.
  intros Ho Hp. unfold state_of. cbn [objects].
  rewrite !lookup_insert. by repeat case_decide; simplify_eq.
Qed.

Lemma state_of_active s a r p :
  objects s !! a = Some r → m_can r = Some p → state_of s a = Some active.
Proof. intros Hr Hp. unfold state_of. by rewrite Hr, Hp. Qed.

(** C6, as amended. A live router is in one of two logical states, active
    (its peripheral pointer is set) or detached (it is null). One operation
    changes the state of a live router only in these ways: from active to
    detached when the router is the source of a move assignment or of a
    move construction; from detached to active when it is the destination
    of a move assignment from another, active router; and by its own
    destruction, after which it has no state. In every machine reached from
    the initial one by operations that construct a router only on a
    peripheral no live router is bound to, a router bound to a peripheral is
    the receive callback of that peripheral. *)
Theorem lifecycle_transitions :
  (∀ s a r, objects s !! a = Some r →
     state_of s a = Some active ∧ is_Some (m_can r) ∨
     state_of s a = Some detached ∧ m_can r = None) ∧
  (∀ o s s' a st,
     exec capacity o s = Ok (tt, s') →
     state_of s a = Some st →
     state_of s' a = Some st ∨
     (st = active ∧ state_of s' a = Some detached ∧
      ∃ dst, o = MoveAssign dst a ∨ o = MoveConstruct dst a) ∨
     (st = detached ∧ state_of s' a = Some active ∧
      ∃ src, src ≠ a ∧ o = MoveAssign a src ∧
             state_of s src = Some active) ∨
     (state_of s' a = None ∧ o = Destroy a)) ∧
  (∀ s, reachable capacity s → bound s).
Proof.
  split_and!; [| |apply reachable_bound].
  { intros s a r Hr. unfold state_of. rewrite Hr.
    destruct (m_can r); [left|right]; eauto. }
  intros o s s' a st Hrun Hst. destruct o; cbn [exec] in Hrun.
  - apply construct_inv in Hrun as [Hnew ->]. left.
    unfold state_of in *. cbn [objects].
    rewrite lookup_insert. case_decide; simplify_eq; [|done].
    by rewrite Hnew in Hst.
  - apply move_construct_inv in Hrun as (r & p & Hnew & Hr & Hp & ->).
    rewrite (state_of_moved _ _ _ r) by done.
    pose proof (state_of_active _ _ _ _ Hr Hp) as Hact.
    repeat case_decide; simplify_eq; [|..|by left].
    + right; left. eauto.
    + unfold state_of in Hst. by rewrite Hnew in Hst.
  - apply move_assign_inv in Hrun as (d & r & p & Hd & Hr & Hp & ->).
    rewrite (state_of_moved _ _ _ r) by done.
    pose proof (state_of_active _ _ _ _ Hr Hp) as Hact.
    repeat case_decide; simplify_eq; [|..|by left].
    + right; left. eauto.
    + destruct st; [by left|]. right; right; left. eauto 10.
  - apply destroy_inv in Hrun as (r & Hr & ->).
    unfold state_of in *. cbn [objects].
    rewrite lookup_delete. case_decide; simplify_eq; [|by left].
    by right; right; right.
  - unfold mbind, M_bind, add_message_callback_id in Hrun.
    destruct (push_back _ _ _ s) as [[k s1]|e] eqn:Hpush; [|done].
    apply push_back_inv in Hpush as (r & Hr & _ & _ & ->).
    cbv [mret M_ret] in Hrun. simplify_eq. left.
    by rewrite (state_of_insert_same _ _ r).
  - unfold mbind, M_bind, add_message_callback in Hrun.
    destruct (push_back _ _ _ s) as [[k s1]|e] eqn:Hpush; [|done].
    apply push_back_inv in Hpush as (r & Hr & _ & _ & ->).
    cbv [mret M_ret] in Hrun. simplify_eq. left.
    by rewrite (state_of_insert_same _ _ r).
  - unfold mbind, M_bind in Hrun.
    destruct (call_operator _ _ s) as [[cs s1]|e] eqn:Hcall; [|done].
    apply call_operator_inv in Hcall as ->.
    cbv [mret M_ret] in Hrun. simplify_eq. by left.
  - unfold item_destroy in Hrun. simplify_eq. left.
    unfold state_of in *. cbn [objects with_objects]. rewrite lookup_fmap.
    by destruct (objects s !! a).
Qed.

(** * Further properties of the member functions *)

(** ** What [operator()] can call *)

Lemma dispatch_at_most_one rs msg : length (dispatch rs msg) ≤ 1.
Proof.
  induction rs as [|x rs IH]; cbn [dispatch]; [cbn; lia|].
  destruct (msg_id msg =? route_id x)%N; [cbn; lia|done].
Qed.

Lemma dispatch_sound rs msg h m :
  Call h m ∈ dispatch rs msg →
  m = msg ∧ ∃ rt, rt ∈ rs ∧ h = route_handler rt ∧ route_id rt = msg_id msg.
Proof.
  induction rs as [|x rs IH]; cbn [dispatch].
  { by intros ?%elem_of_nil. }
  destruct (N.eqb_spec (msg_id msg) (route_id x)) as [Heq|Hne].
  - intros Hin%list_elem_of_singleton. simplify_eq.
    split; [done|]. exists x. split_and!; [by left|done..].
  - intros (-> & rt & Hrt & -> & Hid)%IH.
    split; [done|]. exists rt. split_and!; [by right|done..].
Qed.

Lemma dispatch_nil_passes rs msg :
  dispatch rs msg = [] → Forall (passes msg) rs.
Proof.
  induction rs as [|x rs IH]; cbn [dispatch]; [by constructor|].
  destruct (N.eqb_spec (msg_id msg) (route_id x)) as [Heq|Hne]; [done|].
  intros Hrs. constructor; [|by apply IH]. unfold passes. congruence.
Qed.

Lemma dispatch_snoc rs x msg :
  dispatch (rs ++ [x]) msg =
  match dispatch rs msg with
  | [] => if (msg_id msg =? route_id x)%N
          then [Call (route_handler x) msg] else []
  | cs => cs
  end.
Proof.
  induction rs as [|y rs IH]; cbn [app dispatch]; [done|].
  by destruct (msg_id msg =? route_id y)%N.
Qed.

(** X1. Whatever [operator()] calls is the handler of a route registered on
    that router under the identifier of the frame, and it is called with
    that very frame; at most one handler is called for a frame, and the
    machine is left as it was. *)
Theorem call_operator_sound s this msg cs s' :
  call_operator this msg s = Ok (cs, s') →
  s' = s ∧ length cs ≤ 1 ∧
  ∀ h m, Call h m ∈ cs →
    m = msg ∧
    ∃ r rt, objects s !! this = Some r ∧ rt ∈ elements (m_handlers r) ∧
            h = route_handler rt ∧ route_id rt = msg_id msg.
Proof.
  intros Hrun. destruct (objects s !! this) as [r|] eqn:Hr;
    [|by rewrite call_operator_dead in Hrun].
  rewrite (call_operator_ok _ _ r) in Hrun by done. simplify_eq.
  split_and!; [done|apply dispatch_at_most_one|].
  intros h m (-> & rt & Hrt & -> & Hid)%dispatch_sound. eauto 10.
Qed.

(** X2. A frame is dropped exactly when no route of the router has its
    identifier: as soon as one route has it, a handler is called. *)
Theorem call_operator_drops_iff s this r msg :
  objects s !! this = Some r →
  call_operator this msg s = Ok ([], s) ↔
  Forall (passes msg) (elements (m_handlers r)).
Proof.
  intros Hr. rewrite (call_operator_ok _ _ r) by done. split.
  - intros Hnil. apply dispatch_nil_passes. by simplify_eq.
  - intros Hall. by rewrite dispatch_none.
Qed.

(** X3. A registration changes the dispatch of those frames only that
    carry the new identifier and were dropped before: they now go to the
    new handler. A frame that some route already took keeps going to that
    route, so a second registration under an identifier in use is never
    called while the first is in place. *)
Theorem add_message_callback_dispatch s this p_id p_handler k s' msg :
  add_message_callback capacity this p_id p_handler s = Ok (k, s') →
  ∃ cs,
    call_operator this msg s = Ok (cs, s) ∧
    call_operator this msg s' =
      Ok (match cs with
          | [] => if (msg_id msg =? p_id)%N then [Call p_handler msg] else []
          | _ => cs
          end, s').
Proof.
  intros (r & Hr & _ & -> & ->)%push_back_inv.
  eexists. split; [by apply call_operator_ok|].
  erewrite call_operator_ok by (by cbn; rewrite lookup_insert_eq).
  unfold elements. cbn [m_handlers]. rewrite fmap_app. cbn [fmap list_fmap snd].
  rewrite dispatch_snoc. by destruct (dispatch _ msg).
Qed.

(** ** A new router *)

(** X4. The constructor on unused storage gives an active router with no
    route: [bus()] returns the peripheral the constructor was given,
    [handlers()] is empty, the router is the receive callback of the
    peripheral, and every frame the peripheral receives is dropped. No other
    router and no other receive slot changes. *)
Theorem construct_new_router s this p s' :
  construct this p s = Ok (tt, s') →
  objects s !! this = None ∧
  state_of s' this = Some active ∧
  bus this s' = Ok (p, s') ∧
  handlers this s' = Ok ([], s') ∧
  slot s' !! p = Some (recv_router this) ∧
  (∀ msg, receive p msg s' = Ok ([], s')) ∧
  (∀ a, a ≠ this → objects s' !! a = objects s !! a) ∧
  (∀ q, q ≠ p → slot s' !! q = slot s !! q).
Proof.
  intros [Hnew ->]%construct_inv.
  assert (∀ (X : gmap addr (can_router (App := App))) x,
            <[this := x]> X !! this = Some x) as Hthis
    by (intros; apply lookup_insert_eq).
  split_and!; [done|..].
  - unfold state_of. cbn [objects]. by rewrite Hthis.
  - unfold bus. by run_code.
  - unfold handlers. by run_code.
  - apply lookup_insert_eq.
  - intros msg. unfold receive. cbn [slot]. rewrite lookup_insert_eq.
    cbn [invoke]. by erewrite call_operator_ok by apply Hthis.
  - intros a Ha. cbn [objects]. by rewrite lookup_insert_ne.
  - intros q Hq. cbn [slot]. by rewrite lookup_insert_ne.
Qed.

(** ** Moves *)

Lemma bus_ok s this r p :
  objects s !! this = Some r → m_can r = Some p → bus this s = Ok (p, s).
Proof. intros Hr Hp. unfold bus. by run_code. Qed.

Lemma bus_null s this r :
  objects s !! this = Some r → m_can r = None →
  bus this s = Err NullDereference.
Proof. intros Hr Hp. unfold bus. by run_code. Qed.

Lemma handlers_ok s this r :
  objects s !! this = Some r → handlers this s = Ok (m_handlers r, s).
Proof. intros Hr. unfold handlers. by run_code. Qed.

Lemma receive_router s p this msg :
  slot s !! p = Some (recv_router this) →
  receive p msg s = call_operator this msg s.
Proof. intros Hp. unfold receive. by rewrite Hp. Qed.

Lemma receive_noop s p msg :
  slot s !! p = Some recv_noop → receive p msg s = Ok ([], s).
Proof. intros Hp. unfold receive. by rewrite Hp. Qed.

(** X5. A move into a different object carries the router over whole:
    [bus()] and [handlers()] on the destination return what they returned
    on the source before the move, [operator()] on the destination makes
    the calls it would have made on the source, and a frame the peripheral
    receives after the move is dispatched by the destination. *)
Theorem move_preserves_bus_and_dispatch s this other s' :
  this ≠ other →
  move_assign this other s = Ok (tt, s') ∨
  move_construct this other s = Ok (tt, s') →
  ∃ p l,
    bus other s = Ok (p, s) ∧ bus this s' = Ok (p, s') ∧
    handlers other s = Ok (l, s) ∧ handlers this s' = Ok (l, s') ∧
    ∀ msg, ∃ cs,
      call_operator other msg s = Ok (cs, s) ∧
      call_operator this msg s' = Ok (cs, s') ∧
      receive p msg s' = Ok (cs, s').
Proof.
  intros Hne Hmove.
  assert (∃ o p, objects s !! other = Some o ∧ m_can o = Some p ∧
            objects s' !! this =
              Some {| m_handlers := m_handlers o; m_can := Some p |} ∧
            slot s' !! p = Some (recv_router this))
    as (o & p & Ho & Hp & Hthis & Hslot).
  { destruct Hmove as [Hrun|Hrun].
    - apply move_assign_inv in Hrun as (d & o & p & _ & Ho & Hp & ->).
      exists o, p. cbn [objects slot].
      by rewrite lookup_insert_ne, !lookup_insert_eq.
    - apply move_construct_inv in Hrun as (o & p & _ & Ho & Hp & ->).
      exists o, p. cbn [objects slot].
      by rewrite lookup_insert_ne, !lookup_insert_eq. }
  exists p, (m_handlers o). split_and!.
  - by apply (bus_ok _ _ o).
  - by eapply bus_ok.
  - by apply handlers_ok.
  - by rewrite (handlers_ok _ _ _ Hthis).
  - intros msg. eexists. split; [by apply call_operator_ok|].
    rewrite (receive_router _ _ this) by done.
    by rewrite (call_operator_ok _ _ _ _ Hthis).
Qed.

(** X6. Moving a router into new storage and assigning it back restores
    it: the router has its routes and its peripheral again and is the
    receive callback again, the other object is left empty and detached, and
    nothing else has changed. *)
Theorem move_there_and_back s this other r p :
  objects s !! this = Some r →
  m_can r = Some p →
  objects s !! other = None →
  ∃ s1 s2,
    move_construct other this s = Ok (tt, s1) ∧
    move_assign this other s1 = Ok (tt, s2) ∧
    objects s2 !! this = Some r ∧
    objects s2 !! other = Some {| m_handlers := []; m_can := None |} ∧
    (∀ a, a ≠ this → a ≠ other → objects s2 !! a = objects s !! a) ∧
    slot s2 = <[p := recv_router this]> (slot s) ∧
    (slot s !! p = Some (recv_router this) → slot s2 = slot s) ∧
    next_item s2 = next_item s.
Proof.
  intros Hr Hp Hnew.
  assert (this ≠ other) as Hne by congruence.
  eexists _, _. split; [by apply (move_construct_ok _ _ _ r p)|].
  split.
  { eapply move_assign_ok; cbn [objects];
      [by rewrite lookup_insert_eq
      |by rewrite lookup_insert_ne, lookup_insert_eq|done]. }
  cbn [objects slot next_item m_handlers].
  split_and!.
  - rewrite lookup_insert_ne, lookup_insert_eq by done.
    by rewrite <- Hp, object_eta.
  - by rewrite lookup_insert_eq.
  - intros a ??. by rewrite !lookup_insert_ne.
  - by rewrite insert_insert_eq.
  - intros Hslot. rewrite insert_insert_eq. by apply insert_id.
  - done.
Qed.

(** X7. Assigning a router to itself by move detaches it: its peripheral
    pointer ends null while the peripheral keeps it as receive callback.
    Its destructor then resets nothing, and the peripheral is left with a
    callback into a destroyed object. *)
Theorem self_move_detaches s this r p :
  objects s !! this = Some r →
  m_can r = Some p →
  ∃ s1 s2,
    move_assign this this s = Ok (tt, s1) ∧
    state_of s1 this = Some detached ∧
    slot s1 !! p = Some (recv_router this) ∧
    destroy this s1 = Ok (tt, s2) ∧
    objects s2 !! this = None ∧
    slot s2 !! p = Some (recv_router this) ∧
    ∀ msg, receive p msg s2 = Err InvalidObject.
Proof.
  intros Hr Hp.
  eexists _, _. split; [by apply (move_assign_ok _ _ _ r r p)|].
  split; [unfold state_of; cbn [objects]; by rewrite lookup_insert_eq|].
  split; [apply lookup_insert_eq|].
  split; [eapply destroy_ok; cbn [objects]; by rewrite lookup_insert_eq|].
  cbn [objects slot m_can]. split_and!.
  - by rewrite lookup_delete_eq.
  - apply lookup_insert_eq.
  - intros msg. erewrite receive_router by apply lookup_insert_eq.
    apply call_operator_dead. cbn [objects]. by rewrite lookup_delete_eq.
Qed.

(** X8. Move assignment onto a router that is bound to another peripheral
    does not release that peripheral: its slot keeps naming the
    destination, so its frames are now dispatched over the routes that were
    moved in. The destructor of the destination resets only the slot of the
    peripheral that was moved in, and the former peripheral is left with a
    callback into a destroyed object. *)
Theorem move_assign_keeps_old_slot s this other d o p q :
  objects s !! this = Some d →
  m_can d = Some q →
  slot s !! q = Some (recv_router this) →
  objects s !! other = Some o →
  m_can o = Some p →
  p ≠ q →
  ∃ s1 s2,
    move_assign this other s = Ok (tt, s1) ∧
    bus this s1 = Ok (p, s1) ∧
    slot s1 !! q = Some (recv_router this) ∧
    (∀ msg, receive q msg s1 =
            Ok (dispatch (elements (m_handlers o)) msg, s1)) ∧
    destroy this s1 = Ok (tt, s2) ∧
    slot s2 !! p = Some recv_noop ∧
    slot s2 !! q = Some (recv_router this) ∧
    ∀ msg, receive q msg s2 = Err InvalidObject.
Proof.
  intros Hd Hq Hslot Ho Hp Hpq.
  assert (this ≠ other) as Hne by congruence.
  eexists _, _. split; [by apply (move_assign_ok _ _ _ d o p)|].
  assert (∀ s1, objects s1 =
            <[other := {| m_handlers := []; m_can := None |}]>
              (<[this := {| m_handlers := m_handlers o; m_can := Some p |}]>
                 (objects s)) →
          objects s1 !! this =
            Some {| m_handlers := m_handlers o; m_can := Some p |}) as Hthis.
  { intros s1 ->. by rewrite lookup_insert_ne, lookup_insert_eq. }
  split; [by eapply bus_ok; [apply Hthis|]|].
  split; [by cbn [slot]; rewrite lookup_insert_ne|].
  split.
  { intros msg. erewrite receive_router
      by (by cbn [slot]; rewrite lookup_insert_ne).
    by erewrite call_operator_ok by (by apply Hthis). }
  split; [by eapply destroy_ok, Hthis|].
  cbn [objects slot m_can]. split_and!.
  - apply lookup_insert_eq.
  - by rewrite !lookup_insert_ne.
  - intros msg.
    erewrite receive_router
      by (by cbn [slot m_can]; rewrite !lookup_insert_ne).
    apply call_operator_dead. cbn [objects]. by rewrite lookup_delete_eq.
Qed.

(** X9. The constructor does not check that the peripheral is free. A
    second router constructed on the peripheral of a live one takes over
    the receive slot while the first stays bound; the destructor of the
    first then resets the slot, and the second, still active, receives
    nothing any more. *)
Theorem destroy_silences_later_router s this other r p :
  objects s !! this = Some r →
  m_can r = Some p →
  objects s !! other = None →
  ∃ s1 s2,
    construct other p s = Ok (tt, s1) ∧
    state_of s1 this = Some active ∧
    slot s1 !! p = Some (recv_router other) ∧
    destroy this s1 = Ok (tt, s2) ∧
    state_of s2 other = Some active ∧
    bus other s2 = Ok (p, s2) ∧
    slot s2 !! p = Some recv_noop ∧
    ∀ msg, receive p msg s2 = Ok ([], s2).
Proof.
  intros Hr Hp Hnew.
  assert (this ≠ other) as Hne by congruence.
  eexists _, _. split; [by apply construct_ok|].
  assert (∀ X : gmap addr (can_router (App := App)),
            X !! this = Some r →
            <[other := {| m_handlers := []; m_can := Some p |}]> X !! this
            = Some r) as Hthis
    by (intros; by rewrite lookup_insert_ne).
  split; [unfold state_of; cbn [objects]; by rewrite Hthis, Hp|].
  split; [apply lookup_insert_eq|].
  split; [eapply destroy_ok; cbn [objects]; by apply Hthis|].
  rewrite Hp. cbn [objects slot].
  assert (delete this
            (<[other := {| m_handlers := []; m_can := Some p |}]> (objects s))
            !! other = Some {| m_handlers := []; m_can := Some p |}) as Hother
    by (by rewrite lookup_delete_ne, lookup_insert_eq).
  split_and!.
  - unfold state_of. cbn [objects]. by rewrite Hother.
  - by eapply bus_ok.
  - apply lookup_insert_eq.
  - intros msg. apply receive_noop. apply lookup_insert_eq.
Qed.

(** ** Registration and the route store *)

(** X10. A successful registration shows in [handlers()]: the list is the
    one before followed by the new node, which carries the item returned
    and the identifier and handler given. Registration leaves every receive
    slot, every other router and the state of every router as it was. *)
Theorem add_message_callback_handlers s this p_id p_handler k s' :
  add_message_callback capacity this p_id p_handler s = Ok (k, s') →
  ∃ l,
    handlers this s = Ok (l, s) ∧
    length l < capacity ∧
    handlers this s' =
      Ok (l ++ [(k, {| route_id := p_id; route_handler := p_handler |})],
          s') ∧
    slot s' = slot s ∧
    (∀ a, state_of s' a = state_of s a) ∧
    (∀ a, a ≠ this → objects s' !! a = objects s !! a).
Proof.
  intros (r & Hr & Hlt & -> & ->)%push_back_inv.
  exists (m_handlers r). split_and!; [by apply handlers_ok|done| |done|..].
  - by erewrite handlers_ok by (by cbn [objects]; rewrite lookup_insert_eq).
  - intros a. by apply (state_of_insert_same _ _ r).
  - intros a Ha. cbn [objects]. by rewrite lookup_insert_ne.
Qed.

(** X11. Registration and dispatch do not need a peripheral. On a detached
    router with room in its store, registration succeeds, the router stays
    detached, and [operator()] called on it dispatches a frame of the new
    identifier to the new handler, while [bus()] faults. *)
Theorem detached_router_registers s this r p_id p_handler :
  objects s !! this = Some r →
  m_can r = None →
  length (m_handlers r) < capacity →
  ∃ k s',
    add_message_callback capacity this p_id p_handler s = Ok (k, s') ∧
    state_of s' this = Some detached ∧
    bus this s' = Err NullDereference ∧
    ∀ msg, msg_id msg = p_id →
      Forall (passes msg) (elements (m_handlers r)) →
      call_operator this msg s' = Ok ([Call p_handler msg], s').
Proof.
  intros Hr Hp Hlt.
  eexists _, _. split; [by apply (push_back_ok _ _ r)|].
  assert (∀ (X : gmap addr (can_router (App := App))) x,
            <[this := x]> X !! this = Some x) as Hthis
    by (intros; apply lookup_insert_eq).
  split_and!.
  - unfold state_of. cbn [objects]. by rewrite Hthis, Hp.
  - by eapply bus_null; [apply Hthis|].
  - intros msg Hid Hpre.
    erewrite call_operator_ok by apply Hthis.
    unfold elements in *. cbn [m_handlers]. rewrite fmap_app.
    rewrite dispatch_skip by done. cbn [fmap list_fmap snd].
    by rewrite dispatch_hit.
Qed.

Lemma dispatch_unlink k l msg :
  (∀ rt, (k, rt) ∈ l → route_id rt ≠ msg_id msg) →
  dispatch (elements (unlink k l)) msg = dispatch (elements l) msg.
Proof.
  unfold elements, unlink. induction l as [|[k' x] l IH]; [done|].
  intros Hk. rewrite filter_cons. cbn [fst].
  assert (dispatch (filter (λ e, e.1 ≠ k) l).*2 msg = dispatch l.*2 msg)
    as IH' by (apply IH; intros rt Hrt; apply Hk; by right).
  destruct (decide (k' ≠ k)) as [Hne|Heq%dec_stable].
  - rewrite !fmap_cons. cbn [snd dispatch]. by rewrite IH'.
  - subst k'. rewrite IH', fmap_cons. cbn [snd dispatch].
    destruct (N.eqb_spec (msg_id msg) (route_id x)) as [Hid|_]; [|done].
    destruct (Hk x); [by left|done].
Qed.

(** X12. Destroying an item touches the dispatch of the identifier of its
    route only: on every router, a frame with another identifier makes
    [operator()] call what it called before. *)
Theorem item_destroy_other_identifiers s this r k msg :
  objects s !! this = Some r →
  (∀ rt, (k, rt) ∈ m_handlers r → route_id rt ≠ msg_id msg) →
  ∃ s' cs,
    item_destroy k s = Ok (tt, s') ∧
    call_operator this msg s = Ok (cs, s) ∧
    call_operator this msg s' = Ok (cs, s').
Proof.
  intros Hr Hk. eexists _, _. split; [done|].
  split; [by apply call_operator_ok|].
  erewrite call_operator_ok
    by (by cbn [with_objects objects]; rewrite lookup_fmap, Hr).
  cbn [m_handlers]. by rewrite dispatch_unlink.
Qed.

(** ** Careful use *)

Lemma careful_exclusive o s : careful o s → exclusive o s.
Proof. by destruct o. Qed.

Lemma anchored_init : anchored (init (App := App)).
Proof. intros q a. cbn. by rewrite lookup_empty. Qed.

Lemma anchored_moved s this other d o p :
  bound s → anchored s →
  this ≠ other →
  objects s !! this = d →
  (∀ r, d = Some r → m_can r = None) →
  objects s !! other = Some o →
  m_can o = Some p →
  anchored {| objects :=
                <[other := {| m_handlers := []; m_can := None |}]>
                  (<[this := {| m_handlers := m_handlers o;
                                m_can := Some p |}]> (objects s));
              slot := <[p := recv_router this]> (slot s);
              next_item := next_item s |}.
Proof.
  intros Hb Ha Hne Hd Hdet Ho Hp q a. cbn [objects slot].
  rewrite lookup_insert. case_decide; simplify_eq.
  { intros ?. simplify_eq. eexists.
    by rewrite lookup_insert_ne, lookup_insert_eq. }
  intros (r & Hr & Hq)%Ha.
  assert (a ≠ other) by (intros ->; congruence).
  assert (a ≠ this).
  { intros ->. specialize (Hdet _ Hr). congruence. }
  exists r. by rewrite !lookup_insert_ne.
Qed.

Lemma anchored_exec o s s' :
  bound s → anchored s → careful o s →
  exec capacity o s = Ok (tt, s') → anchored s'.
Proof.
  intros Hb Ha Hcare Hrun. destruct o; cbn [exec careful] in *.
  - apply construct_inv in Hrun as [Hnew ->].
    intros q a. cbn [objects slot].
    rewrite lookup_insert. case_decide; simplify_eq.
    + intros ?. simplify_eq. eexists. by rewrite lookup_insert_eq.
    + intros (r & Hr & Hq)%Ha. exists r.
      rewrite lookup_insert_ne; [done|]. congruence.
  - apply move_construct_inv in Hrun as (r & p & Hnew & Hr & Hp & ->).
    apply (anchored_moved _ _ _ None r p);
      [done|done|congruence|done|done|done|done].
  - destruct Hcare as [Hne Hdet].
    apply move_assign_inv in Hrun as (d & r & p & Hd & Hr & Hp & ->).
    apply (anchored_moved _ _ _ (Some d) r p);
      [done|done|done|done| |done|done].
    intros r' ?. simplify_eq. unfold state_of in Hdet. rewrite Hd in Hdet.
    by destruct (m_can r').
  - apply destroy_inv in Hrun as (r & Hr & ->).
    intros q a. cbn [objects slot]. intros Hslot.
    assert (slot s !! q = Some (recv_router a) ∧ m_can r ≠ Some q)
      as [Hold Hrq].
    { destruct (m_can r) as [p|]; [|done].
      rewrite lookup_insert in Hslot. case_decide; simplify_eq.
      split; [done|congruence]. }
    apply Ha in Hold as (ra & Hra & Hq). exists ra.
    rewrite lookup_delete_ne; [done|]. intros ->. congruence.
  - unfold mbind, M_bind, add_message_callback_id in Hrun.
    destruct (push_back _ _ _ s) as [[k s1]|e] eqn:Hpush; [|done].
    apply push_back_inv in Hpush as (r & Hr & _ & _ & ->).
    cbv [mret M_ret] in Hrun. simplify_eq.
    intros q a (ra & Hra & Hq)%Ha. cbn [objects].
    rewrite lookup_insert. case_decide; simplify_eq; eauto.
  - unfold mbind, M_bind, add_message_callback in Hrun.
    destruct (push_back _ _ _ s) as [[k s1]|e] eqn:Hpush; [|done].
    apply push_back_inv in Hpush as (r & Hr & _ & _ & ->).
    cbv [mret M_ret] in Hrun. simplify_eq.
    intros q a (ra & Hra & Hq)%Ha. cbn [objects].
    rewrite lookup_insert. case_decide; simplify_eq; eauto.
  - unfold mbind, M_bind in Hrun.
    destruct (call_operator _ _ s) as [[cs s1]|e] eqn:Hcall; [|done].
    apply call_operator_inv in Hcall as ->.
    cbv [mret M_ret] in Hrun. by simplify_eq.
  - unfold item_destroy in Hrun. simplify_eq.
    intros q a (ra & Hra & Hq)%Ha. cbn [objects with_objects].
    eexists. rewrite lookup_fmap, Hra. by cbn.
Qed.

Lemma carefully_invariants s :
  reachable_carefully capacity s → bound s ∧ anchored s.
Proof.
  induction 1 as [|o s s' _ [Hb Ha] Hcare Hrun].
  - split; [apply bound_init|apply anchored_init].
  - split; [|by eapply anchored_exec].
    eapply bound_exec; [done|by apply careful_exclusive|done].
Qed.

(** X14. Under careful use (a router is constructed only on a peripheral
    no live router is bound to, and move assignment only targets a detached
    router other than the source) no receive slot ever names a destroyed or
    a detached router: a slot that names a router names a live one bound to
    that peripheral, a frame received on the peripheral of an active router
    is dispatched by that router, and the reception of a frame on any
    peripheral completes without a fault. *)
Theorem careful_use_never_dangles s :
  reachable_carefully capacity s →
  (∀ q a, slot s !! q = Some (recv_router a) →
     state_of s a = Some active ∧ bus a s = Ok (q, s)) ∧
  (∀ a r p msg, objects s !! a = Some r → m_can r = Some p →
     receive p msg s = call_operator a msg s) ∧
  (∀ p msg, ∃ cs, receive p msg s = Ok (cs, s)).
Proof.
  intros [Hb Ha]%carefully_invariants. split_and!.
  - intros q a (r & Hr & Hq)%Ha.
    split; [by eapply state_of_active|by eapply bus_ok].
  - intros a r p msg Hr Hp. apply receive_router. by eapply Hb.
  - intros p msg. unfold receive.
    destruct (slot s !! p) as [[|a]|] eqn:Hp; [by eexists..| |by eexists].
    apply Ha in Hp as (r & Hr & _). cbn [invoke].
    eexists. by apply call_operator_ok.
Qed.

(** X15. Under careful use the destructor leaves no callback into the
    destroyed router: after it, no receive slot names that router, whether
    it was active or detached, and every other slot is as before. *)
Theorem careful_destroy_leaves_no_callback s this r :
  reachable_carefully capacity s →
  objects s !! this = Some r →
  ∃ s',
    destroy this s = Ok (tt, s') ∧
    reachable_carefully capacity s' ∧
    (∀ q, slot s' !! q ≠ Some (recv_router this)) ∧
    (∀ q, m_can r ≠ Some q → slot s' !! q = slot s !! q).
Proof.
  intros Hreach Hr.
  pose proof (carefully_invariants _ Hreach) as [Hb Ha].
  eexists. split; [by apply destroy_ok|].
  split; [by eapply (carefully_step _ (Destroy this)); [done..|apply destroy_ok]|].
  cbn [slot]. split.
  - intros q Hslot.
    assert (slot s !! q = Some (recv_router this)) as Hold.
    { destruct (m_can r) as [p|]; [|done].
      rewrite lookup_insert in Hslot. by case_decide. }
    apply Ha in Hold as (r' & Hr' & Hq). simplify_eq.
    rewrite Hq, lookup_insert_eq in Hslot. done.
  - intros q Hq. destruct (m_can r) as [p|]; [|done].
    rewrite lookup_insert_ne; [done|]. congruence.
Qed.

End Properties.

(** * The scenario of the specification *)

Example scenario_runs : run 3 scenario init = Ok (tt, scenario_machine).
Proof. reflexivity. Qed.

Example scenario_dispatch :
  call_operator 1 (frame 0x100) scenario_machine =
    Ok ([Call (record_call 0) (frame 0x100)], scenario_machine) ∧
  call_operator 1 (frame 0x200) scenario_machine =
    Ok ([Call (record_call 1) (frame 0x200)], scenario_machine) ∧
  call_operator 1 (frame 0x300) scenario_machine = Ok ([], scenario_machine).
Proof. done. Qed.

(** Capacity 2: two registrations succeed, a third fails, and succeeds once
    an item has been destroyed. *)
Example scenario_capacity :
  ∃ s,
    run (App := list (nat * N)) 2
      [ Construct 1 7;
        AddMessageCallbackId 1 0x100;
        AddMessageCallback 1 0x200 (record_call 1) ] init = Ok (tt, s) ∧
    add_message_callback_id 2 1 0x300 s = Err CapacityExceeded ∧
    ∃ s' s'',
      item_destroy 0 s = Ok (tt, s') ∧
      add_message_callback_id 2 1 0x300 s' = Ok (2, s'').
Proof. eexists. split; [reflexivity|]. split; [reflexivity|]. by eexists _, _. Qed.

Example scenario_moved :
  move_construct 2 1 scenario_machine = Ok (tt, moved_machine).
Proof. reflexivity. Qed.

(** * The properties on the scenario *)

Lemma call_operator_first_match_witness :
  call_operator 1 (frame 0x200) scenario_machine =
    Ok ([Call (record_call 1) (frame 0x200)], scenario_machine) ∧
  ∀ w, run_calls [Call (record_call 1) (frame 0x200)] w =
       record_call 1 (frame 0x200) w.
Proof.
  apply (call_operator_first_match scenario_machine 1 scenario_router
           [route_A] route_B [route_C] (frame 0x200)).
  - reflexivity.
  - reflexivity.
  - repeat constructor. unfold passes. cbn. lia.
  - reflexivity.
Defined.

Lemma call_operator_no_match_witness :
  call_operator 1 (frame 0x300) scenario_machine = Ok ([], scenario_machine) ∧
  ∀ w, run_calls
         (dispatch (elements (m_handlers scenario_router)) (frame 0x300)) w = w.
Proof.
  apply (call_operator_no_match scenario_machine 1 scenario_router
           (frame 0x300)).
  - reflexivity.
  - repeat constructor; unfold passes; cbn; lia.
Defined.

Lemma add_message_callback_capacity_witness :
  ∃ ks s' r',
    register_all 5 1 [(0x200%N, Some (record_call 1)); (0x300%N, None)]
      scenario_machine = Ok (ks, s') ∧
    length ks = 2 ∧ objects s' !! 1 = Some r' ∧
    ∀ g, register 5 1 g s' = Err CapacityExceeded.
Proof.
  destruct (add_message_callback_capacity 5 scenario_machine 1 scenario_router
              [(0x200%N, Some (record_call 1)); (0x300%N, None)])
    as (ks & s' & r' & Hrun & Hks & Hr' & _ & _ & Hfull).
  - reflexivity.
  - cbn. lia.
  - exists ks, s', r'. split; [|split; [exact Hks|split; [exact Hr'|]]].
    + exact Hrun.
    + apply Hfull. reflexivity.
Defined.

Lemma move_transfers_routes_witness :
  ∃ s',
    move_construct 2 1 scenario_machine = Ok (tt, s') ∧
    objects s' !! 2 = Some scenario_router ∧
    objects s' !! 1 = Some {| m_handlers := []; m_can := None |} ∧
    slot s' !! 7 = Some (recv_router 2) ∧
    ∃ s'', destroy 1 s' = Ok (tt, s'') ∧ slot s'' = slot s'.
Proof.
  destruct (move_transfers_routes scenario_machine 2 1 scenario_router 7)
    as (s' & _ & Hmove & Hthis & Hother & _ & _ & Hslot & _ & Hdestroy).
  - reflexivity.
  - reflexivity.
  - lia.
  - exists s'. split; [apply Hmove; reflexivity|].
    split; [exact Hthis|]. split; [exact Hother|]. split; [exact Hslot|].
    exact Hdestroy.
Defined.


Lemma lifecycle_transitions_witness :
  slot scenario_machine !! 7 = Some (recv_router 1).
Proof.
  assert (reachable 3 scenario_machine) as Hreach.
  { pose proof (reachable_init (App := list (nat * N)) 3) as H0.
    assert (exclusive (Construct 1 7) (init (App := list (nat * N))))
      as Hfree
      by (intros a r Ha; cbn in Ha; rewrite lookup_empty in Ha; discriminate).
    pose proof (reachable_step 3 (Construct 1 7) _ _ H0 Hfree eq_refl) as H1.
    pose proof (reachable_step 3 (AddMessageCallback 1 0x100 (record_call 0))
                  _ _ H1 I eq_refl) as H2.
    pose proof (reachable_step 3 (AddMessageCallback 1 0x200 (record_call 1))
                  _ _ H2 I eq_refl) as H3.
    exact (reachable_step 3 (AddMessageCallback 1 0x100 (record_call 2))
             _ _ H3 I eq_refl). }
  destruct (lifecycle_transitions (App := list (nat * N)) 3) as (_ & _ & Hbound).
  apply (Hbound scenario_machine Hreach 1 scenario_router 7); reflexivity.
Defined.

Lemma item_destroy_removes_route_witness :
  ∃ s',
    item_destroy 0 scenario_machine = Ok (tt, s') ∧
    objects s' !! 1 =
      Some {| m_handlers := [(1, route_B); (2, route_C)]; m_can := Some 7 |} ∧
    call_operator 1 (frame 0x100) scenario_machine =
      Ok ([Call (record_call 0) (frame 0x100)], scenario_machine) ∧
    call_operator 1 (frame 0x100) s' =
      Ok ([Call (record_call 2) (frame 0x100)], s').
Proof.
  destruct (item_destroy_removes_route 3 scenario scenario_machine 1
              scenario_router [] 0 route_A [(1, route_B); (2, route_C)])
    as (s' & Hrun & Hthis & _ & _ & Hmsg).
  - reflexivity.
  - reflexivity.
  - reflexivity.
  - destruct (Hmsg (frame 0x100)) as (Hbefore & _ & Hlater).
    + reflexivity.
    + constructor.
    + exists s'. split; [exact Hrun|]. split; [exact Hthis|].
      split; [exact Hbefore|].
      apply (Hlater [route_B] route_C []).
      * reflexivity.
      * repeat constructor. unfold passes. cbn. lia.
      * reflexivity.
Defined.

Lemma add_message_callback_id_noop_witness :
  ∃ k s',
    add_message_callback_id 4 1 0x300 scenario_machine = Ok (k, s') ∧
    call_operator 1 (frame 0x300) s' = Ok ([Call noop (frame 0x300)], s') ∧
    ∀ w : list (nat * N), run_calls [Call noop (frame 0x300)] w = w.
Proof.
  destruct (add_message_callback_id_noop 4 scenario_machine 1 scenario_router
              0x300)
    as (_ & k & s' & r' & Hrun & _ & _ & _ & Hmsg).
  - reflexivity.
  - cbn. lia.
  - exists k, s'. split; [exact Hrun|].
    apply (Hmsg (frame 0x300)).
    + reflexivity.
    + repeat constructor; unfold passes; cbn; lia.
Defined.

Lemma call_operator_moved_from_witness :
  state_of moved_machine 1 = Some detached ∧
  bus 1 moved_machine = Err NullDereference ∧
  call_operator 1 (frame 0x100) moved_machine = Ok ([], moved_machine).
Proof.
  apply (call_operator_moved_from scenario_machine 2 1 moved_machine
           (frame 0x100)).
  - lia.
  - right. reflexivity.
Defined.

Lemma move_requires_active_source_witness :
  move_assign 2 1 moved_machine = Err NullDereference ∧
  move_construct 3 1 moved_machine = Err NullDereference.
Proof.
  destruct (move_requires_active_source moved_machine 2 1
              {| m_handlers := []; m_can := None |} eq_refl)
    as [Hassign _].
  destruct (move_requires_active_source moved_machine 3 1
              {| m_handlers := []; m_can := None |} eq_refl)
    as [_ Hconstruct].
  split.
  - apply Hassign; [by eexists|reflexivity].
  - apply Hconstruct; reflexivity.
Defined.

(** C6, as stated, fails. The router at 1 is constructed (active), moved
    into new storage at 2 (detached), made the destination of a move
    assignment from 2 (active again) and moved into new storage at 3
    (detached a second time): a detached router does become active, and the
    same router goes from active to detached twice. And when a second router
    is constructed on the peripheral of a live one, the first still holds
    its peripheral reference while the receive callback is the second. *)
Lemma detached_router_becomes_active :
  state_after (App := unit) 0 [Construct 1 7] 1 = Some active ∧
  state_after (App := unit) 0 [Construct 1 7; MoveConstruct 2 1] 1 =
    Some detached ∧
  state_after (App := unit) 0
    [Construct 1 7; MoveConstruct 2 1; MoveAssign 1 2] 1 = Some active ∧
  state_after (App := unit) 0
    [Construct 1 7; MoveConstruct 2 1; MoveAssign 1 2; MoveConstruct 3 1] 1 =
    Some detached ∧
  state_after (App := unit) 0 [Construct 1 7; Construct 2 7] 1 =
    Some active ∧
  target_after (App := unit) 0 [Construct 1 7; Construct 2 7] 7 =
    Some (recv_router 2).
Proof. repeat split; reflexivity. Qed.

(** * The further properties on the scenario *)

Lemma scenario_reachable_carefully : reachable_carefully 3 scenario_machine.
Proof.
  pose proof (carefully_init (App := list (nat * N)) 3) as H0.
  assert (careful (Construct 1 7) (init (App := list (nat * N))))
    as Hfree
    by (intros a r Ha; cbn in Ha; rewrite lookup_empty in Ha; discriminate).
  pose proof (carefully_step 3 (Construct 1 7) _ _ H0 Hfree eq_refl) as H1.
  pose proof (carefully_step 3 (AddMessageCallback 1 0x100 (record_call 0))
                _ _ H1 I eq_refl) as H2.
  pose proof (carefully_step 3 (AddMessageCallback 1 0x200 (record_call 1))
                _ _ H2 I eq_refl) as H3.
  exact (carefully_step 3 (AddMessageCallback 1 0x100 (record_call 2))
           _ _ H3 I eq_refl).
Defined.

Lemma call_operator_sound_witness :
  length [Call (record_call 0) (frame 0x100)] ≤ 1 ∧
  ∀ h m, Call h m ∈ [Call (record_call 0) (frame 0x100)] →
    m = frame 0x100 ∧
    ∃ r rt, objects scenario_machine !! 1 = Some r ∧
            rt ∈ elements (m_handlers r) ∧
            h = route_handler rt ∧ route_id rt = msg_id (frame 0x100).
Proof.
  apply (call_operator_sound scenario_machine 1 (frame 0x100)
           [Call (record_call 0) (frame 0x100)] scenario_machine).
  reflexivity.
Defined.

Lemma call_operator_drops_iff_witness :
  call_operator 1 (frame 0x300) scenario_machine = Ok ([], scenario_machine) ↔
  Forall (passes (frame 0x300)) (elements (m_handlers scenario_router)).
Proof.
  apply (call_operator_drops_iff scenario_machine 1 scenario_router
           (frame 0x300)).
  reflexivity.
Defined.

Lemma add_message_callback_dispatch_witness :
  ∃ s' cs,
    add_message_callback 4 1 0x100 (record_call 9) scenario_machine =
      Ok (3, s') ∧
    call_operator 1 (frame 0x100) scenario_machine =
      Ok (cs, scenario_machine) ∧
    call_operator 1 (frame 0x100) s' =
      Ok (match cs with
          | [] => if (msg_id (frame 0x100) =? 0x100)%N
                  then [Call (record_call 9) (frame 0x100)] else []
          | _ => cs
          end, s').
Proof.
  eexists.
  destruct (add_message_callback_dispatch 4 scenario_machine 1 0x100
              (record_call 9) 3 _ (frame 0x100) eq_refl) as (cs & Hcs).
  exists cs. split; [reflexivity|exact Hcs].
Defined.

Lemma construct_new_router_witness :
  ∃ s',
    construct 5 9 scenario_machine = Ok (tt, s') ∧
    state_of s' 5 = Some active ∧
    bus 5 s' = Ok (9, s') ∧
    handlers 5 s' = Ok ([], s') ∧
    ∀ msg, receive 9 msg s' = Ok ([], s').
Proof.
  eexists. split; [reflexivity|].
  destruct (construct_new_router scenario_machine 5 9 _ eq_refl)
    as (_ & Hact & Hbus & Hhandlers & _ & Hrecv & _).
  split; [exact Hact|]. split; [exact Hbus|].
  split; [exact Hhandlers|exact Hrecv].
Defined.

Lemma move_preserves_bus_and_dispatch_witness :
  ∃ p l,
    bus 1 scenario_machine = Ok (p, scenario_machine) ∧
    bus 2 moved_machine = Ok (p, moved_machine) ∧
    handlers 1 scenario_machine = Ok (l, scenario_machine) ∧
    handlers 2 moved_machine = Ok (l, moved_machine) ∧
    ∀ msg, ∃ cs,
      call_operator 1 msg scenario_machine = Ok (cs, scenario_machine) ∧
      call_operator 2 msg moved_machine = Ok (cs, moved_machine) ∧
      receive p msg moved_machine = Ok (cs, moved_machine).
Proof.
  apply (move_preserves_bus_and_dispatch scenario_machine 2 1 moved_machine).
  - lia.
  - right. reflexivity.
Defined.

Lemma move_there_and_back_witness :
  ∃ s1 s2,
    move_construct 2 1 scenario_machine = Ok (tt, s1) ∧
    move_assign 1 2 s1 = Ok (tt, s2) ∧
    objects s2 !! 1 = Some scenario_router ∧
    slot s2 = slot scenario_machine.
Proof.
  destruct (move_there_and_back scenario_machine 1 2 scenario_router 7)
    as (s1 & s2 & H1 & H2 & Hthis & _ & _ & _ & Hslot & _).
  - reflexivity.
  - reflexivity.
  - reflexivity.
  - exists s1, s2. split; [exact H1|]. split; [exact H2|].
    split; [exact Hthis|]. apply Hslot. reflexivity.
Defined.

Lemma self_move_detaches_witness :
  ∃ s1 s2,
    move_assign 1 1 scenario_machine = Ok (tt, s1) ∧
    state_of s1 1 = Some detached ∧
    destroy 1 s1 = Ok (tt, s2) ∧
    slot s2 !! 7 = Some (recv_router 1) ∧
    receive 7 (frame 0x100) s2 = Err InvalidObject.
Proof.
  destruct (self_move_detaches scenario_machine 1 scenario_router 7)
    as (s1 & s2 & H1 & Hdet & _ & H2 & _ & Hslot & Hrecv).
  - reflexivity.
  - reflexivity.
  - exists s1, s2. split; [exact H1|]. split; [exact Hdet|].
    split; [exact H2|]. split; [exact Hslot|]. apply Hrecv.
Defined.

Lemma move_assign_keeps_old_slot_witness :
  ∃ s1 s2,
    move_assign 2 1 two_routers = Ok (tt, s1) ∧
    receive 8 (frame 0x100) s1 =
      Ok ([Call (record_call 0) (frame 0x100)], s1) ∧
    destroy 2 s1 = Ok (tt, s2) ∧
    slot s2 !! 8 = Some (recv_router 2) ∧
    receive 8 (frame 0x100) s2 = Err InvalidObject.
Proof.
  destruct (move_assign_keeps_old_slot two_routers 2 1 second_router
              scenario_router 7 8)
    as (s1 & s2 & H1 & _ & _ & Hrecv1 & H2 & _ & Hslot & Hrecv2).
  - reflexivity.
  - reflexivity.
  - reflexivity.
  - reflexivity.
  - reflexivity.
  - lia.
  - exists s1, s2. split; [exact H1|]. split; [apply Hrecv1|].
    split; [exact H2|]. split; [exact Hslot|]. apply Hrecv2.
Defined.

Lemma destroy_silences_later_router_witness :
  ∃ s1 s2,
    construct 2 7 scenario_machine = Ok (tt, s1) ∧
    destroy 1 s1 = Ok (tt, s2) ∧
    state_of s2 2 = Some active ∧
    receive 7 (frame 0x100) s2 = Ok ([], s2).
Proof.
  destruct (destroy_silences_later_router scenario_machine 1 2
              scenario_router 7)
    as (s1 & s2 & H1 & _ & _ & H2 & Hact & _ & _ & Hrecv).
  - reflexivity.
  - reflexivity.
  - reflexivity.
  - exists s1, s2. split; [exact H1|]. split; [exact H2|].
    split; [exact Hact|]. apply Hrecv.
Defined.

Lemma add_message_callback_handlers_witness :
  ∃ s' l,
    add_message_callback 4 1 0x300 (record_call 9) scenario_machine =
      Ok (3, s') ∧
    handlers 1 scenario_machine = Ok (l, scenario_machine) ∧
    handlers 1 s' =
      Ok (l ++ [(3, {| route_id := 0x300;
                       route_handler := record_call 9 |})], s') ∧
    slot s' = slot scenario_machine.
Proof.
  eexists.
  destruct (add_message_callback_handlers 4 scenario_machine 1 0x300
              (record_call 9) 3 _ eq_refl)
    as (l & Hl & _ & Hl' & Hslot & _).
  exists l. split; [reflexivity|]. split; [exact Hl|].
  split; [exact Hl'|exact Hslot].
Defined.

Lemma detached_router_registers_witness :
  ∃ k s',
    add_message_callback 3 1 0x100 (record_call 9) moved_machine =
      Ok (k, s') ∧
    state_of s' 1 = Some detached ∧
    bus 1 s' = Err NullDereference ∧
    call_operator 1 (frame 0x100) s' =
      Ok ([Call (record_call 9) (frame 0x100)], s').
Proof.
  destruct (detached_router_registers 3 moved_machine 1
              {| m_handlers := []; m_can := None |} 0x100 (record_call 9))
    as (k & s' & Hrun & Hdet & Hbus & Hcall).
  - reflexivity.
  - reflexivity.
  - cbn. lia.
  - exists k, s'. split; [exact Hrun|]. split; [exact Hdet|].
    split; [exact Hbus|]. apply Hcall; [reflexivity|constructor].
Defined.

Lemma item_destroy_other_identifiers_witness :
  ∃ s' cs,
    item_destroy 0 scenario_machine = Ok (tt, s') ∧
    call_operator 1 (frame 0x200) scenario_machine =
      Ok (cs, scenario_machine) ∧
    call_operator 1 (frame 0x200) s' = Ok (cs, s').
Proof.
  apply (item_destroy_other_identifiers scenario_machine 1 scenario_router 0
           (frame 0x200)).
  - reflexivity.
  - intros rt Hrt. cbn [scenario_router m_handlers] in Hrt.
    apply elem_of_cons in Hrt as [Hrt|Hrt].
    + injection Hrt as ->. unfold passes. cbn. lia.
    + apply elem_of_cons in Hrt as [Hrt|Hrt]; [discriminate|].
      apply elem_of_cons in Hrt as [Hrt|Hrt]; [discriminate|].
      by apply elem_of_nil in Hrt.
Defined.

Lemma careful_use_never_dangles_witness :
  receive 7 (frame 0x200) scenario_machine =
    call_operator 1 (frame 0x200) scenario_machine ∧
  ∀ p msg, ∃ cs, receive p msg scenario_machine = Ok (cs, scenario_machine).
Proof.
  destruct (careful_use_never_dangles 3 scenario_machine
              scenario_reachable_carefully) as (_ & Hbound & Hsafe).
  split; [|exact Hsafe].
  apply (Hbound 1 scenario_router 7); reflexivity.
Defined.

Lemma careful_destroy_leaves_no_callback_witness :
  ∃ s',
    destroy 1 scenario_machine = Ok (tt, s') ∧
    ∀ q, slot s' !! q ≠ Some (recv_router 1).
Proof.
  destruct (careful_destroy_leaves_no_callback 3 scenario_machine 1
              scenario_router scenario_reachable_carefully eq_refl)
    as (s' & Hrun & _ & Hnone & _).
  exists s'. split; [exact Hrun|exact Hnone].
Defined.

